(** * Cassiopeia: the percolation and greedy split strategies

    A shallow embedding of [cassiopeia/solver/PercolationSolver.py] and
    [cassiopeia/solver/VanillaGreedySolver.py].

    Conventions of the embedding:
    - samples are row indices of [unique_character_matrix], modelled as [nat];
    - character states and similarity scores are integers ([Z]);
    - a Python exception is a value of [exn], threaded by the [result] monad;
    - a [networkx.Graph] is its insertion-ordered node list and its edge set;
    - a Python [set] of nodes is a [gset nat]; the order in which Python
      iterates a set is an implementation detail, [list(s)] lists the members
      in increasing order and the statements about groups depend on the
      members only. *)

From stdpp Require Import base gmap sets list sorting strings.
From Stdlib Require Import ZArith QArith Lia.
From Stdlib Require Ascii String DecimalString OrderedTypeEx.
Import Ascii.AsciiSyntax.
Delimit Scope char_scope with char.

Open Scope Z_scope.
Open Scope nat_scope.
Open Scope stdpp_scope.

(** ** Exceptions and the error monad *)

Inductive exn : Type :=
  | IndexError      (* list.pop() on an empty list, row index out of range *)
  | KeyError        (* dict lookup of a missing key *)
  | NetworkXError.  (* Graph.remove_edge of an edge that is not in the graph *)

Inductive result (A : Type) : Type :=
  | Ok (a : A)
  | Raise (e : exn).
Arguments Ok {A} a.
Arguments Raise {A} e.

#[global] Instance result_ret : MRet result := λ A a, Ok a.
#[global] Instance result_bind : MBind result := λ A B k m,
  match m with
  | Ok a => k a
  | Raise e => Raise e
  end.

(** A [for] loop whose body may raise. *)
Fixpoint for_each {A S} (body : S → A → result S) (l : list A) (s : S) : result S :=
  match l with
  | [] => Ok s
  | x :: l' => s' ← body s x ; for_each body l' s'
  end.

(** A list comprehension whose element expression may raise. *)
Fixpoint comprehension {A B} (f : A → result B) (l : list A) : result (list B) :=
  match l with
  | [] => Ok []
  | x :: l' => y ← f x ; ys ← comprehension f l' ; Ok (y :: ys)
  end.

(** ** networkx.Graph *)

Module nx.

(** [nodes] is the key order of the node dict; [edges] holds each edge under
    the orientation(s) it was added with, adjacency reads both. *)
Record Graph : Type := mkGraph {
  nodes : list nat;
  edges : gset (nat * nat);
}.

Definition empty : Graph := mkGraph [] ∅.

Definition add_node (v : nat) (G : Graph) : Graph :=
  if decide (v ∈ nodes G) then G else mkGraph (nodes G ++ [v]) (edges G).

Definition has_edge (G : Graph) (u v : nat) : bool :=
  bool_decide ((u, v) ∈ edges G ∨ (v, u) ∈ edges G).

Definition add_edge (u v : nat) (G : Graph) : Graph :=
  let G' := add_node v (add_node u G) in
  mkGraph (nodes G') ({[ (u, v) ]} ∪ edges G').

Definition remove_edge (u v : nat) (G : Graph) : result Graph :=
  if has_edge G u v
  then Ok (mkGraph (nodes G) (edges G ∖ {[ (u, v); (v, u) ]}))
  else Raise NetworkXError.

(** [len(G.edges) == 0] *)
Definition no_edges (G : Graph) : bool := bool_decide (edges G = ∅).

(** The union of [G.adj[v]] over [v ∈ vs]. *)
Definition adj_of (G : Graph) (vs : gset nat) : gset nat :=
  set_map snd (filter (λ e, e.1 ∈ vs) (edges G))
  ∪ set_map fst (filter (λ e, e.2 ∈ vs) (edges G)).

(** [_plain_bfs]: level by level; every unseen node of the level is marked
    and its neighbours make the next level. The [while nextlevel] loop runs
    on fuel, [connected_components] supplies enough (see
    [plain_bfs_closed]). *)
Fixpoint plain_bfs (fuel : nat) (G : Graph) (seen nextlevel : gset nat) : gset nat :=
  match fuel with
  | O => seen
  | S fuel' =>
      if decide (nextlevel = ∅) then seen
      else
        let fresh := nextlevel ∖ seen in
        plain_bfs fuel' G (seen ∪ fresh) (adj_of G fresh)
  end.

Definition component_of (G : Graph) (source : nat) : gset nat :=
  plain_bfs (length (nodes G) + 2) G ∅ {[ source ]}.

(** [connected_components]: [for v in G: if v not in seen: ...] *)
Fixpoint components_from (G : Graph) (vs : list nat) (seen : gset nat)
  : list (gset nat) :=
  match vs with
  | [] => []
  | v :: vs' =>
      if decide (v ∈ seen) then components_from G vs' seen
      else
        let c := component_of G v in
        c :: components_from G vs' (seen ∪ c)
  end.

Definition connected_components (G : Graph) : list (gset nat) :=
  components_from G (nodes G) ∅.

End nx.

(** [list(s)] for a set of nodes. *)
Definition list_of_set (s : gset nat) : list nat := merge_sort (≤) (elements s).

(** ** itertools.combinations(samples, 2) *)

Fixpoint combinations2 {A} (l : list A) : list (A * A) :=
  match l with
  | [] => []
  | x :: l' => map (pair x) l' ++ combinations2 l'
  end.

(** ** Trees, LCA characters and neighbor joining

    [solver_utilities] and [NeighborJoiningSolver] are modules of this
    repository that [perform_split] calls; their definitions follow the
    design document of the solver. *)

#[warnings="-register-all"]
Inductive Tree : Type :=
  | Leaf (name : nat)
  | Internal (children : list Tree).

(** [tree.successors(n)] *)
Definition successors (t : Tree) : list Tree :=
  match t with
  | Leaf _ => []
  | Internal cs => cs
  end.

(** Modelled from the spec: [solver_utilities.get_leaves], the leaves of the
    subtree hanging off a node. *)
Fixpoint get_leaves (t : Tree) : list nat :=
  match t with
  | Leaf n => [n]
  | Internal cs => concat (map get_leaves cs)
  end.

(** Modelled from the spec: an internal node with a single child is spliced
    out and its child is reparented to its parent. *)
Fixpoint splice_unifurcations (t : Tree) : Tree :=
  match t with
  | Leaf n => Leaf n
  | Internal cs =>
      match map splice_unifurcations cs with
      | [c] => c
      | cs' => Internal cs'
      end
  end.

(** Modelled from the spec: [solver_utilities.collapse_unifurcations_newick].
    The root has no parent to take over its child, so it stays; every node
    below it is spliced. *)
Definition collapse_unifurcations (t : Tree) : Tree :=
  match t with
  | Leaf n => Leaf n
  | Internal cs => Internal (map splice_unifurcations cs)
  end.

(** Modelled from the spec: the ancestral state at one character. If every
    entry is missing the state is missing; if the non-missing entries agree
    it is their state; if they disagree it is the unmutated state 0. *)
Definition lca_state (missing_char : Z) (column : list Z) : Z :=
  match remove_dups (filter (λ s, s ≠ missing_char) column) with
  | [] => missing_char
  | [s] => s
  | _ => 0%Z
  end.

(** Modelled from the spec: [solver_utilities.get_lca_characters], one
    position at a time. *)
Definition get_lca_characters (vectors : list (list Z)) (missing_char : Z) : list Z :=
  match vectors with
  | [] => []
  | v :: _ =>
      map (λ k, lca_state missing_char (omap (λ u, u !! k) vectors))
          (seq 0 (length v))
  end.

(** Modelled from the spec: the neighbor-joining subroutine
    ([NeighborJoiningSolver]): iteratively join the closest pair by a
    corrected distance, replace it with a new internal node, update the
    distances, and repeat until two nodes remain. *)
Module NeighborJoining.

(** Every element of a list together with the others. *)
Fixpoint select {A} (l : list A) : list (A * list A) :=
  match l with
  | [] => []
  | x :: l' => (x, l') :: map (λ yr, (yr.1, x :: yr.2)) (select l')
  end.

(** Every pair of a list (in list order) together with the others. *)
Fixpoint pairs {A} (l : list A) : list (A * A * list A) :=
  match l with
  | [] => []
  | x :: l' =>
      map (λ yr, (x, yr.1, yr.2)) (select l')
      ++ map (λ abr, (abr.1.1, abr.1.2, x :: abr.2)) (pairs l')
  end.

(** The first element of [l] at which [f] is least. *)
Fixpoint argmin {A} (f : A → Q) (l : list A) : option A :=
  match l with
  | [] => None
  | x :: l' =>
      match argmin f l' with
      | None => Some x
      | Some y => if Qle_bool (f x) (f y) then Some x else Some y
      end
  end.

(** The nodes still to be joined (each with the subtree built so far), the
    distance between any two of them, and the next fresh node name. *)
Record state : Type := mkState {
  active : list (nat * Tree);
  dist : nat → nat → Q;
  fresh : nat;
}.

Definition total_dist (st : state) (i : nat) : Q :=
  foldr Qplus 0%Q
    (map (λ k, dist st i k) (filter (λ k, k ≠ i) (map fst (active st)))).

(** The corrected distance
    [(n - 2) d(i,j) - sum_k d(i,k) - sum_k d(j,k)]. *)
Definition corrected (st : state) (i j : nat) : Q :=
  (inject_Z (Z.of_nat (length (active st)) - 2) * dist st i j
   - total_dist st i - total_dist st j)%Q.

(** Join the closest pair into a new internal node [u] with
    [d(u,k) = (d(i,k) + d(j,k) - d(i,j)) / 2]. *)
Definition join (st : state) : state :=
  match argmin (λ c, corrected st c.1.1.1 c.1.2.1) (pairs (active st)) with
  | None => st
  | Some ((i, ti), (j, tj), others) =>
      let u := fresh st in
      let to_u k := ((dist st i k + dist st j k - dist st i j) / 2)%Q in
      mkState (others ++ [(u, Internal [ti; tj])])
              (λ a b,
                 if decide (a = u) then (if decide (b = u) then 0%Q else to_u b)
                 else if decide (b = u) then to_u a
                 else dist st a b)
              (S u)
  end.

Fixpoint joins (n : nat) (st : state) : state :=
  match n with
  | O => st
  | S n' => joins n' (join st)
  end.

(** Modelled from the spec: [NeighborJoiningSolver(...).solve()] and the
    tree it leaves in [.tree]: join the closest pair by corrected distance,
    replace it with a new internal node, update the distances, and repeat
    until two nodes remain; the root of the rooted view sits on the edge
    between these two. Taxa are the row labels [0 .. n-1] of the character
    matrix. *)
Definition solve (character_matrix : list (list Z))
    (dissimilarity_function : list Z → list Z → Q) : Tree :=
  let n := length character_matrix in
  let r i := default [] (character_matrix !! i) in
  let st0 := mkState (map (λ i, (i, Leaf i)) (seq 0 n))
                     (λ i j, dissimilarity_function (r i) (r j)) n in
  Internal (map snd (active (joins (n - 2) st0))).

End NeighborJoining.

(** ** The order of [sorted(..., reverse=True)] *)

Definition descending : relation Z := λ a b, (b ≤ a)%Z.

#[global] Instance descending_dec : RelDecision descending.
Proof. intros a b. unfold descending. apply _. Defined.

(** ** The solver's configuration (the attributes [perform_split] reads) *)

Definition Weights : Type := nat → Z → Z.

Definition SimilarityFunction : Type :=
  list Z → list Z → Z → option Weights → Z.

Record PercolationSolver : Type := {
  unique_character_matrix : list (list Z);
  missing_char : Z;
  weights : option Weights;
  similarity_function : SimilarityFunction;
  threshold : Z;
}.

(** Modelled from the spec: [similarity_functions.hamming_similarity], the
    default of the constructor: the number of character/state mutations the
    two samples share. A position counts when both vectors carry the same
    state there and that state is neither unmutated (0) nor missing; it counts
    for 1, or for its weight when weights are given. *)
Fixpoint hamming_similarity_from (k : nat) (s1 s2 : list Z) (missing_char : Z)
    (w : option Weights) : Z :=
  match s1, s2 with
  | a :: s1', b :: s2' =>
      ((if bool_decide (a = b ∧ a ≠ 0 ∧ a ≠ missing_char)
        then match w with Some f => f k a | None => 1 end
        else 0)
       + hamming_similarity_from (S k) s1' s2' missing_char w)%Z
  | _, _ => 0%Z
  end.

(** Modelled from the spec: [similarity_functions.hamming_similarity] counts
    from position 0. *)
Definition hamming_similarity : SimilarityFunction := hamming_similarity_from 0.

Section PerformSplit.

Variable self : PercolationSolver.

(** [self.unique_character_matrix[i]] *)
Definition row (i : nat) : result (list Z) :=
  match unique_character_matrix self !! i with
  | Some r => Ok r
  | None => Raise IndexError
  end.

Definition similarity (i j : nat) : result Z :=
  ri ← row i ;
  rj ← row j ;
  Ok (similarity_function self ri rj (missing_char self) (weights self)).

(** [edge_weights_to_pairs] is a [defaultdict(list)]. *)
Definition bucket (edge_weights_to_pairs : gmap Z (list (nat * nat))) (w : Z)
  : list (nat * nat) :=
  default [] (edge_weights_to_pairs !! w).

Definition add_pair (st : nx.Graph * gmap Z (list (nat * nat))) (ij : nat * nat)
  : result (nx.Graph * gmap Z (list (nat * nat))) :=
  let '(G, edge_weights_to_pairs) := st in
  let '(i, j) := ij in
  s ← similarity i j ;
  if bool_decide (threshold self ≤ s)%Z
  then Ok (nx.add_edge i j G,
           <[ s := bucket edge_weights_to_pairs s ++ [(i, j)] ]> edge_weights_to_pairs)
  else Ok (G, edge_weights_to_pairs).

(** Lines 110-125: the similarity graph and the weight buckets. *)
Definition similarity_graph (samples : list nat)
  : result (nx.Graph * gmap Z (list (nat * nat))) :=
  let G := foldl (λ G v, nx.add_node v G) nx.empty samples in
  for_each add_pair (combinations2 samples) (G, ∅).

(** [sorted(edge_weights_to_pairs, reverse=True)]: the keys, largest first. *)
Definition sorted_reverse (edge_weights_to_pairs : gmap Z (list (nat * nat))) : list Z :=
  merge_sort descending (elements (dom edge_weights_to_pairs)).

(** [for edge in ...: G.remove_edge(edge[0], edge[1])] *)
Definition remove_edges (es : list (nat * nat)) (G : nx.Graph) : result nx.Graph :=
  for_each (λ G e, nx.remove_edge e.1 e.2 G) es G.

(** Lines 135-139. [sorted_edge_weights.pop()] takes the last element, so
    the loop consumes the list from its end: [pops] is the list of weights
    in the order they are popped, [reverse sorted_edge_weights]. The loop
    returns the percolated graph and the weights not yet popped. *)
Fixpoint percolate (edge_weights_to_pairs : gmap Z (list (nat * nat)))
    (pops : list Z) (G : nx.Graph) : result (nx.Graph * list Z) :=
  if decide (length (nx.connected_components G) ≤ 1) then
    match pops with
    | [] => Raise IndexError
    | min_weight :: pops' =>
        G' ← remove_edges (bucket edge_weights_to_pairs min_weight) G ;
        percolate edge_weights_to_pairs pops' G'
    end
  else Ok (G, pops).

(** Line 164: negative similarity as the dissimilarity. *)
Definition negative_similarity (s1 s2 : list Z) (missing_char : Z)
    (w : option Weights) : Z :=
  (-1 * similarity_function self s1 s2 missing_char w)%Z.

(** [component_to_nodes[component]] *)
Definition nodes_of (component_to_nodes : list (list nat)) (component : nat)
  : result (list nat) :=
  match component_to_nodes !! component with
  | Some ns => Ok ns
  | None => Raise KeyError
  end.

(** The clusters of components read off the root of the joined tree
    (lines 168-181). The joining solver is handed the four-argument
    [negative_similarity]; it is taken to call it with the missing marker
    and the weights of this solver. *)
Definition clusters_of (lcas : list (list Z)) : list (list nat) :=
  let tree :=
    NeighborJoining.solve lcas
      (λ s1 s2, inject_Z (negative_similarity s1 s2 (missing_char self) (weights self))) in
  map get_leaves (successors (collapse_unifurcations tree)).

(** Lines 147-190: merge more than two components into two groups. *)
Definition merge_components (connected_components : list (list nat))
  : result (list (list nat)) :=
  let component_to_nodes := connected_components in
  lcas ← comprehension
    (λ component,
       character_vectors ← comprehension row component ;
       Ok (get_lca_characters character_vectors (missing_char self)))
    connected_components ;
  comprehension
    (λ cluster,
       node_groups ← comprehension (nodes_of component_to_nodes) cluster ;
       Ok (concat node_groups))
    (clusters_of lcas).

(** [perform_split]. The tuple [(samples, [])] and the list of groups the
    other branches return are both given as the list of the groups. *)
Definition perform_split (samples : list nat) : result (list (list nat)) :=
  '(G, edge_weights_to_pairs) ← similarity_graph samples ;
  if nx.no_edges G then Ok [samples; []]
  else
    let sorted_edge_weights := sorted_reverse edge_weights_to_pairs in
    '(G', _) ← percolate edge_weights_to_pairs (reverse sorted_edge_weights) G ;
    let connected_components := map list_of_set (nx.connected_components G') in
    if decide (2 < length connected_components)
    then merge_components connected_components
    else Ok connected_components.

End PerformSplit.

(** ** Graph vocabulary of the statements *)

Definition adjacent (G : nx.Graph) (u v : nat) : Prop :=
  (u, v) ∈ nx.edges G ∨ (v, u) ∈ nx.edges G.

(** A set of nodes no edge leaves. *)
Definition closed (G : nx.Graph) (X : gset nat) : Prop :=
  ∀ x y, x ∈ X → adjacent G x y → y ∈ X.

(** The node dict has no repeated key and every edge joins two nodes. *)
Definition well_formed (G : nx.Graph) : Prop :=
  NoDup (nx.nodes G) ∧
  ∀ u v, (u, v) ∈ nx.edges G → u ∈ nx.nodes G ∧ v ∈ nx.nodes G.

(** The taxa under the nodes still to be joined. *)
Definition taxa_of (st : NeighborJoining.state) : list nat :=
  concat (map (λ a, get_leaves a.2) (NeighborJoining.active st)).

(** Two states of the joining that differ at most in how their distance
    functions are written. *)
Definition same_state (st1 st2 : NeighborJoining.state) : Prop :=
  NeighborJoining.active st1 = NeighborJoining.active st2 ∧
  NeighborJoining.fresh st1 = NeighborJoining.fresh st2 ∧
  ∀ i j, NeighborJoining.dist st1 i j = NeighborJoining.dist st2 i j.

(** A group of samples made of whole connected components of [G]. *)
Definition union_of_components (G : nx.Graph) (group : list nat) : Prop :=
  ∀ x, x ∈ group →
    ∃ c, c ∈ nx.connected_components G ∧ x ∈ c ∧ ∀ y, y ∈ c → y ∈ group.

(** ** Vocabulary for the similarity graph *)

Section Vocabulary.

Variable self : PercolationSolver.

(** The samples are row indices of the character matrix. *)
Definition valid_rows (samples : list nat) : Prop :=
  Forall (λ i, i < length (unique_character_matrix self)) samples.

Definition row_of (i : nat) : list Z :=
  default [] (unique_character_matrix self !! i).

(** The similarity score line 117 computes for the pair [(i, j)]. *)
Definition edge_weight (e : nat * nat) : Z :=
  similarity_function self (row_of e.1) (row_of e.2)
    (missing_char self) (weights self).

(** The pairs that score at or above the threshold. *)
Definition similar_pairs (samples : list nat) : list (nat * nat) :=
  filter (λ e, (threshold self ≤ edge_weight e)%Z) (combinations2 samples).

(** One round of the percolation loop (lines 136-138) on the graph and the
    weights still to pop. *)
Definition percolation_round (edge_weights_to_pairs : gmap Z (list (nat * nat)))
    (st : nx.Graph * list Z) : result (nx.Graph * list Z) :=
  match st.2 with
  | [] => Raise IndexError
  | min_weight :: pops' =>
      G' ← remove_edges (bucket edge_weights_to_pairs min_weight) st.1 ;
      Ok (G', pops')
  end.

(** The loop takes a round from [st] to [st']: the guard of line 135 holds
    and the body runs without raising. *)
Definition percolation_step (edge_weights_to_pairs : gmap Z (list (nat * nat)))
    (st st' : nx.Graph * list Z) : Prop :=
  length (nx.connected_components st.1) ≤ 1 ∧
  percolation_round edge_weights_to_pairs st = Ok st'.

(** [w] is the least weight among the edges of [G]. *)
Definition least_weight (G : nx.Graph) (w : Z) : Prop :=
  (∃ e, e ∈ nx.edges G ∧ edge_weight e = w) ∧
  (∀ e, e ∈ nx.edges G → (w ≤ edge_weight e)%Z).

(** The loop invariant: the graph holds the similar pairs whose weight is
    still to be popped, and the weights come in strictly increasing
    order. *)
Definition percolating (samples : list nat) (st : nx.Graph * list Z) : Prop :=
  nx.nodes st.1 = samples ∧
  StronglySorted Z.lt st.2 ∧
  (∀ w, w ∈ st.2 → ∃ e, e ∈ similar_pairs samples ∧ edge_weight e = w) ∧
  nx.edges st.1 =
    list_to_set (filter (λ e, edge_weight e ∈ st.2) (similar_pairs samples)).

(** The member samples of the components of a cluster, one component
    after the other. *)
Definition expand (components : list (list nat)) (cluster : list nat) : list nat :=
  concat (map (λ c, default [] (components !! c)) cluster).

(** The ancestral vectors of the components, row [i] for component [i]. *)
Definition lca_matrix (components : list (list nat)) : list (list Z) :=
  map (λ component, get_lca_characters (map row_of component) (missing_char self))
      components.

End Vocabulary.

(** ** VanillaGreedySolver *)

Module VanillaGreedySolver.

Section Solver.

(** The type of the injected missing-data classifier. *)
Variable Classifier : Type.

Record t : Type := {
  character_matrix : list (list Z);
  priors : option Weights;
  missing_data_classifier : Classifier;
  fuzzy_solver : bool;
}.

(** A method whose body is [pass] returns [None] and leaves the solver
    as it was; [self.tree] is not touched. *)
Definition solve (self : t) : option Tree := None.

Definition find_split (self : t) : option (nat * Z) := None.

Definition perform_split (self : t) (samples : list nat) (split : nat * Z)
  : option (list nat * list nat) := None.

End Solver.

End VanillaGreedySolver.

(** ** cassiopeia/preprocess/pipeline.py

    The tables ([pandas.DataFrame]) are lists of rows, one record per row,
    in row order; barcodes, names and sequences are strings, read counts are
    integers. The functions below are the table and name computations of the
    pipeline; plotting, logging and the reading and writing of files leave
    them untouched and are not part of the embedding. *)

Module pipeline.

Inductive error : Type :=
  | IndexError          (* s[-1] on an empty string, [0] on an empty list *)
  | AssertionError      (* a failed assert *)
  | ZeroDivisionError.  (* x / 0 *)

Inductive outcome (A : Type) : Type :=
  | Done (a : A)
  | Fail (e : error).
Arguments Done {A} a.
Arguments Fail {A} e.

#[global] Instance outcome_ret : MRet outcome := λ A a, Done a.
#[global] Instance outcome_bind : MBind outcome := λ A B k m,
  match m with
  | Done a => k a
  | Fail e => Fail e
  end.

(** A [for] loop whose body may raise. *)
Fixpoint loop {A S} (body : S → A → outcome S) (l : list A) (s : S) : outcome S :=
  match l with
  | [] => Done s
  | x :: l' => s' ← body s x ; loop body l' s'
  end.

(** *** Python strings and lists *)

(** [s.split(sep)] for a separator of one character: the pieces between the
    occurrences of [sep], empty pieces included. *)
Fixpoint split (sep : Ascii.ascii) (s : string) : list string :=
  match s with
  | EmptyString => [EmptyString]
  | String c s' =>
      if Ascii.eqb c sep then EmptyString :: split sep s'
      else match split sep s' with
           | [] => [String c EmptyString]
           | piece :: pieces => String c piece :: pieces
           end
  end.

(** [sep.join(pieces)] *)
Definition join (sep : string) (pieces : list string) : string :=
  String.concat sep pieces.

(** [s[-1]] *)
Fixpoint last_char (s : string) : outcome Ascii.ascii :=
  match s with
  | EmptyString => Fail IndexError
  | String c EmptyString => Done c
  | String _ s' => last_char s'
  end.

(** [s[:-1]] *)
Fixpoint but_last_char (s : string) : string :=
  match s with
  | EmptyString => EmptyString
  | String _ EmptyString => EmptyString
  | String c s' => String c (but_last_char s')
  end.

(** [l[-1]] *)
Definition last_item {A} (l : list A) : outcome A :=
  match last l with
  | Some x => Done x
  | None => Fail IndexError
  end.

(** [l[0]] *)
Definition first_item {A} (l : list A) : outcome A :=
  match l with
  | x :: _ => Done x
  | [] => Fail IndexError
  end.

(** Whether the character [c] occurs in [s] ([c in s]). *)
Fixpoint occurs (c : Ascii.ascii) (s : string) : bool :=
  match s with
  | EmptyString => false
  | String c' s' => Ascii.eqb c' c || occurs c s'
  end.

(** [str(n)] for an integer. *)
Definition str (n : Z) : string := DecimalString.NilZero.string_of_int (Z.to_int n).

(** [os.path.join(a, b)] on a POSIX system. *)
Definition os_path_join (a b : string) : string :=
  if String.prefix "/" b then b
  else
    match last_char a with
    | Fail _ => a +:+ b
    | Done c => if Ascii.eqb c "/"%char then a +:+ b else a +:+ "/" +:+ b
    end.

(** *** resolve_umi_sequence *)

(** The paths the three diagnostic plots are saved to (lines 77, 136-138 and
    149-151), in this order. *)
Definition plot_paths (output_directory : string) : string * string * string :=
  (os_path_join output_directory "seqs_per_equivClass.png",
   os_path_join output_directory "/total_vs_top_reads_pickSeq.png",
   output_directory +:+ "/second_vs_top_reads_pickSeq.png").

(** A row of a molecule table. *)
Record Molecule : Type := {
  readName : string;
  cellBC : string;
  UMI : string;
  readCount : Z;
  seq : string;
}.

#[global] Instance Molecule_eq_dec : EqDecision Molecule.
Proof. solve_decision. Defined.

(** The order of the group keys of [groupby]: pairs of strings, compared
    component by component. *)
Definition pair_compare (k1 k2 : string * string) : comparison :=
  match String.compare k1.1 k2.1 with
  | Eq => String.compare k1.2 k2.2
  | c => c
  end.

Definition pair_le : relation (string * string) :=
  λ k1 k2, pair_compare k1 k2 ≠ Gt.

#[global] Instance pair_le_dec : RelDecision pair_le.
Proof. intros k1 k2. unfold pair_le. apply _. Defined.

(** [table.groupby([c1, c2])]: the groups in increasing key order, each with
    its rows in table order. *)
Definition groupby {Row} (key : Row → string * string) (table : list Row)
  : list (string * string * list Row) :=
  map (λ k, (k, filter (λ row, key row = k) table))
      (merge_sort pair_le (remove_dups (map key table))).

Section ResolveUMI.

(** [group.sort_values("readCount", ascending=False)]. The order pandas
    leaves among rows of equal read count is not fixed by its interface, so
    the sort is a parameter. *)
Variable sort_values : list Molecule → list Molecule.

(** [utilities.filter_cells], of this repository but not among the sources
    at hand, and the type of its coverage threshold. *)
Variable Coverage : Type.
Variable filter_cells : list Molecule → Z → Coverage → list Molecule.

(** The body of the loop over the groups (lines 87-113), as far as it
    writes [mt_filter]. *)
Definition mark_group (mt_filter : gmap string bool) (group : list Molecule)
  : outcome (gmap string bool) :=
  if decide (length group = 1) then
    good ← first_item group ;
    Done (<[ readName good := false ]> mt_filter)
  else
    let group_sort := sort_values group in
    good ← first_item group_sort ;
    loop (λ mt_filter i,
            match group_sort !! i with
            | Some bad => Done (<[ readName bad := true ]> mt_filter)
            | None => Fail IndexError
            end)
         (List.seq 1 (length group - 1))
         (<[ readName good := false ]> mt_filter).

(** Lines 84-129: the table of the reads that are kept. *)
Definition resolved (molecule_table : list Molecule) : outcome (list Molecule) :=
  mt_filter ← loop mark_group
    (map snd (groupby (λ row, (cellBC row, UMI row)) molecule_table)) ∅ ;
  Done (filter (λ row, mt_filter !! readName row = Some false) molecule_table).

Definition resolve_umi_sequence (molecule_table : list Molecule)
    (min_avg_reads_per_umi : Coverage) (min_umi_per_cell : Z)
  : outcome (list Molecule) :=
  filt_molecule_table ← resolved molecule_table ;
  Done (filter_cells filt_molecule_table min_umi_per_cell min_avg_reads_per_umi).

End ResolveUMI.

(** *** collapse_umis *)

(** Lines 199-206: the string handed to [Path] for the sorted bam file. *)
Definition sorted_file_name (out_dir bam_fp : string) : outcome string :=
  c ← last_char out_dir ;
  let out_dir := if Ascii.eqb c "/"%char then but_last_char out_dir else out_dir in
  base ← last_item (split "/"%char bam_fp) ;
  Done (out_dir +:+ "/" +:+ join "." (removelast (split "."%char base))
        +:+ "_sorted.bam").

(** *** align_sequences *)

(** What the aligner reports for a query against the reference. *)
Record Alignment : Type := {
  cigar : string;
  query_begin : Z;
  target_begin : Z;
  optimal_alignment_score : Z;
  query_sequence : string;
}.

(** A row of the table of alignments [align_sequences] returns. *)
Record AlignedRead : Type := {
  a_readName : string;
  a_cellBC : string;
  a_UMI : string;
  a_ReadCount : Z;
  a_CIGAR : string;
  a_QueryBegin : Z;
  a_ReferenceBegin : Z;
  a_AlignmentScore : Z;
  a_Seq : string;
}.

(** [d[key] = value] on a dict, which keeps its keys in the order they were
    first inserted. *)
Fixpoint dict_set {V} (d : list (string * V)) (key : string) (value : V)
  : list (string * V) :=
  match d with
  | [] => [(key, value)]
  | (k, v) :: d' =>
      if String.eqb k key then (k, value) :: d' else (k, v) :: dict_set d' key value
  end.

Section AlignSequences.

(** [alignment.StripedSmithWaterman(query, ...)(ref)] with the penalties
    given, from scikit-bio. *)
Variable Penalty : Type.
Variable aligner : Penalty → Penalty → string → string → Alignment.

(** [list(SeqIO.parse(ref_filepath, "fasta"))], the sequences of the
    records of the file, or the exception the reading raises. *)
Variable SeqIO_parse : string → outcome (list string).

(** [bool(x)] for an optional string: [None] and the empty string are
    false. *)
Definition truthy (x : option string) : bool :=
  match x with
  | Some (String _ _) => true
  | _ => false
  end.

(** The table of queries has the default index, one label per row. *)
Definition align_sequences (queries : list Molecule)
    (ref_filepath ref : option string)
    (gap_open_penalty gap_extend_penalty : Penalty)
  : outcome (list AlignedRead) :=
  if negb (truthy ref || truthy ref_filepath) then Fail AssertionError
  else
    ref ← (if truthy ref_filepath
           then records ← SeqIO_parse (default EmptyString ref_filepath) ;
                first_item records
           else Done (default EmptyString ref)) ;
    let alignment_dictionary :=
      foldl (λ d query,
               let aln := aligner gap_open_penalty gap_extend_penalty
                                  (seq query) ref in
               dict_set d (readName query)
                 (cellBC query, UMI query, readCount query, aln))
            [] queries in
    (* (final_time - t0) / queries.shape[0] *)
    if decide (length queries = 0) then Fail ZeroDivisionError
    else
      Done (map (λ entry,
                   let '(name, (cell, umi, count, aln)) := entry in
                   {| a_readName := name; a_cellBC := cell; a_UMI := umi;
                      a_ReadCount := count; a_CIGAR := cigar aln;
                      a_QueryBegin := query_begin aln;
                      a_ReferenceBegin := target_begin aln;
                      a_AlignmentScore := optimal_alignment_score aln;
                      a_Seq := query_sequence aln |})
                alignment_dictionary).

End AlignSequences.

(** *** error_correct_umis *)

(** A row of the table of alignments with their integration barcodes. *)
Record Allele : Type := {
  e_readName : string;
  e_cellBC : string;
  e_intBC : string;
  e_UMI : string;
  e_ReadCount : Z;
  e_allele : string;
}.

#[global] Instance Allele_eq_dec : EqDecision Allele.
Proof. solve_decision. Defined.

(** [sort_values(["cellBC", "intBC", "ReadCount", "UMI"],
    ascending=[True, True, False, False])]: how two rows compare. *)
Definition allele_compare (x y : Allele) : comparison :=
  match String.compare (e_cellBC x) (e_cellBC y) with
  | Eq =>
      match String.compare (e_intBC x) (e_intBC y) with
      | Eq =>
          match Z.compare (e_ReadCount y) (e_ReadCount x) with
          | Eq => String.compare (e_UMI y) (e_UMI x)
          | c => c
          end
      | c => c
      end
  | c => c
  end.

Definition allele_le : relation Allele := λ x y, allele_compare x y ≠ Gt.

#[global] Instance allele_le_dec : RelDecision allele_le.
Proof. intros x y. unfold allele_le. apply _. Defined.

(** The order of the group keys of a [groupby] on three columns. *)
Definition triple_compare (k1 k2 : string * string * string) : comparison :=
  match pair_compare k1.1 k2.1 with
  | Eq => String.compare k1.2 k2.2
  | c => c
  end.

Definition triple_le : relation (string * string * string) :=
  λ k1 k2, triple_compare k1 k2 ≠ Gt.

#[global] Instance triple_le_dec : RelDecision triple_le.
Proof. intros k1 k2. unfold triple_le. apply _. Defined.

(** [table.groupby([c1, c2, c3]).size()]: the number of rows of each group,
    the groups in increasing key order. *)
Definition groupby_size {Row} (key : Row → string * string * string)
    (table : list Row) : list nat :=
  map (λ k, length (filter (λ row, key row = k) table))
      (merge_sort triple_le (remove_dups (map key table))).

Section ErrorCorrectUMIs.

(** [UMI_utils.correct_umis_in_group], of this repository but not among the
    sources at hand: the corrected group, the number of corrections and the
    number of UMIs looked at. *)
Variable correct_umis_in_group : list Allele → string → Z → list Allele * Z * Z.

(** [show_progress] is left at its default, [False]; [verbose] only logs.
    The corrected groups are taken to be tables with the columns of the
    input. *)
Definition error_correct_umis (input_df : list Allele) (_id : string)
    (max_UMI_distance : Z) : outcome (list Allele) :=
  (* len([i for i in input_df.groupby(["cellBC", "intBC", "UMI"]).size()
          if i > 1]) == 0 *)
  if decide (length (filter (λ i, 1 < i)
                       (groupby_size (λ row, (e_cellBC row, e_intBC row, e_UMI row))
                                     input_df)) = 0)
  then
    let sorted_df := merge_sort allele_le input_df in
    if decide (max_UMI_distance = 0%Z) then Done sorted_df
    else
      let allele_groups := groupby (λ row, (e_cellBC row, e_intBC row)) sorted_df in
      let '(alignment_df, num_corrected, total) :=
        foldl (λ acc fields_group,
                 let '(alignment_df, num_corrected, total) := acc in
                 let '(allele_group, num_corr, tot) :=
                   correct_umis_in_group fields_group.2 _id max_UMI_distance in
                 (alignment_df ++ allele_group,
                  (num_corrected + num_corr)%Z, (total + tot)%Z))
              ([], 0%Z, 0%Z) allele_groups in
      (* round(float(num_corrected) / total, 5) *)
      if decide (total = 0%Z) then Fail ZeroDivisionError
      else
        Done (map (λ x,
                     {| e_readName :=
                          join "_" [e_cellBC x; e_UMI x; str (e_ReadCount x)];
                        e_cellBC := e_cellBC x; e_intBC := e_intBC x;
                        e_UMI := e_UMI x; e_ReadCount := e_ReadCount x;
                        e_allele := e_allele x |})
                  alignment_df)
  else Fail AssertionError.

End ErrorCorrectUMIs.

End pipeline.

(** ** Vocabulary for the pipeline *)

(** Comparing by [cmp1] first and by [cmp2] among equals. *)
Definition lexc {A} (cmp1 cmp2 : A → A → comparison) (x y : A) : comparison :=
  match cmp1 x y with
  | Eq => cmp2 x y
  | c => c
  end.

(** A comparison that behaves as a total preorder. *)
Record orderly {A} (cmp : A → A → comparison) : Prop := {
  orderly_refl : ∀ x, cmp x x = Eq;
  orderly_antisym : ∀ x y, cmp y x = CompOpp (cmp x y);
  orderly_trans : ∀ x y z,
    cmp x y ≠ Gt → cmp y z ≠ Gt →
    cmp x z ≠ Gt ∧ (cmp x z = Eq → cmp x y = Eq ∧ cmp y z = Eq);
}.

(** The row of the table of alignments for one query. *)
Definition aligned_read {Penalty : Type}
    (aligner : Penalty → Penalty → string → string → pipeline.Alignment)
    (gap_open_penalty gap_extend_penalty : Penalty) (ref : string)
    (query : pipeline.Molecule) : pipeline.AlignedRead :=
  let aln := aligner gap_open_penalty gap_extend_penalty (pipeline.seq query) ref in
  {| pipeline.a_readName := pipeline.readName query;
     pipeline.a_cellBC := pipeline.cellBC query;
     pipeline.a_UMI := pipeline.UMI query;
     pipeline.a_ReadCount := pipeline.readCount query;
     pipeline.a_CIGAR := pipeline.cigar aln;
     pipeline.a_QueryBegin := pipeline.query_begin aln;
     pipeline.a_ReferenceBegin := pipeline.target_begin aln;
     pipeline.a_AlignmentScore := pipeline.optimal_alignment_score aln;
     pipeline.a_Seq := pipeline.query_sequence aln |}.

(** The key of the groups of [resolve_umi_sequence]. *)
Definition molecule_key (row : pipeline.Molecule) : string * string :=
  (pipeline.cellBC row, pipeline.UMI row).

(** [x] may come before [y] when the rows are sorted by decreasing read
    count. *)
Definition by_read_count : relation pipeline.Molecule :=
  λ x y, (pipeline.readCount y ≤ pipeline.readCount x)%Z.

#[global] Instance by_read_count_dec : RelDecision by_read_count.
Proof. intros x y. unfold by_read_count. apply _. Defined.

(** The key [error_correct_umis] must find at most once. *)
Definition umi_key (row : pipeline.Allele) : string * string * string :=
  (pipeline.e_cellBC row, pipeline.e_intBC row, pipeline.e_UMI row).

(** [x] comes strictly before [y] in the order of the sort. *)
Definition allele_lt : relation pipeline.Allele :=
  λ x y, pipeline.allele_compare x y = Lt.

(** ** Example inputs *)

(** Four samples with state vectors [1,0], [1,0], [0,1], [0,1], missing
    marker -1, hamming similarity, threshold 0. *)
Definition four_samples : PercolationSolver := {|
  unique_character_matrix := [[1; 0]; [1; 0]; [0; 1]; [0; 1]]%Z;
  missing_char := (-1)%Z;
  weights := None;
  similarity_function := hamming_similarity;
  threshold := 0%Z;
|}.

(** Three samples that share no mutation: every pair scores 0. *)
Definition three_samples : PercolationSolver := {|
  unique_character_matrix := [[1; 0; 0]; [0; 1; 0]; [0; 0; 1]]%Z;
  missing_char := (-1)%Z;
  weights := None;
  similarity_function := hamming_similarity;
  threshold := 0%Z;
|}.

(** The four samples again, under a threshold no pair reaches. *)
Definition four_samples_apart : PercolationSolver := {|
  unique_character_matrix := [[1; 0]; [1; 0]; [0; 1]; [0; 1]]%Z;
  missing_char := (-1)%Z;
  weights := None;
  similarity_function := hamming_similarity;
  threshold := 2%Z;
|}.

(** * Facts *)

(** ** The error monad *)

Lemma comprehension_total {A B} (f : A → result B) (g : A → B) l :
  Forall (λ x, f x = Ok (g x)) l → comprehension f l = Ok (map g l).
Proof.
  induction 1 as [|x l Hx _ IH]; simpl; [done|].
  rewrite Hx. simpl. rewrite IH. done.
Qed.

(** ** Breadth-first search and connected components *)

Lemma adjacent_sym G u v : adjacent G u v → adjacent G v u.
Proof. unfold adjacent. tauto. Qed.

Lemma elem_of_adj_of G (X : gset nat) y :
  y ∈ nx.adj_of G X ↔ ∃ x, x ∈ X ∧ adjacent G x y.
Proof.
  unfold nx.adj_of, adjacent. rewrite elem_of_union, !elem_of_map. split.
  - intros [[[a b] [-> H]]|[[a b] [-> H]]];
      apply elem_of_filter in H as [H1 H2]; simpl in *; eauto.
  - intros (x & Hx & [H|H]); [left; exists (x, y) | right; exists (y, x)];
      rewrite elem_of_filter; auto.
Qed.

Lemma adj_of_empty G : nx.adj_of G ∅ = ∅.
Proof.
  apply set_eq. intros y. rewrite elem_of_adj_of. set_solver.
Qed.

Lemma adj_of_no_edges G X : nx.edges G = ∅ → nx.adj_of G X = ∅.
Proof.
  intros HE. apply set_eq. intros y. rewrite elem_of_adj_of.
  unfold adjacent. rewrite HE. set_solver.
Qed.

Lemma plain_bfs_step fuel G seen next :
  nx.plain_bfs (S fuel) G seen next =
  if decide (next = ∅) then seen
  else nx.plain_bfs fuel G (seen ∪ next ∖ seen) (nx.adj_of G (next ∖ seen)).
Proof. done. Qed.

Lemma component_of_unfold G v :
  nx.component_of G v =
  nx.plain_bfs (S (length (nx.nodes G))) G {[ v ]} (nx.adj_of G {[ v ]}).
Proof.
  unfold nx.component_of.
  replace (length (nx.nodes G) + 2) with (S (S (length (nx.nodes G)))) by lia.
  rewrite plain_bfs_step, decide_False by set_solver.
  replace ({[ v ]} ∖ (∅ : gset nat)) with ({[ v ]} : gset nat) by set_solver.
  by rewrite (left_id_L ∅ (∪)).
Qed.

Lemma plain_bfs_seen fuel G seen next : seen ⊆ nx.plain_bfs fuel G seen next.
Proof.
  revert seen next. induction fuel as [|fuel IH]; intros seen next; simpl; [done|].
  case_decide; [done|]. etrans; [|apply IH]. set_solver.
Qed.

(** Whatever holds of the start and is carried along edges holds of every
    node the search reaches. *)
Lemma plain_bfs_invariant (P : nat → Prop) fuel G seen next :
  (∀ x y, P x → adjacent G x y → P y) →
  (∀ x, x ∈ seen → P x) → (∀ x, x ∈ next → P x) →
  ∀ x, x ∈ nx.plain_bfs fuel G seen next → P x.
Proof.
  intros Hstep. revert seen next.
  induction fuel as [|fuel IH]; intros seen next Hs Hn x; simpl; [apply Hs|].
  case_decide; [apply Hs|]. apply IH.
  - intros z [Hz|Hz]%elem_of_union; [auto|]. apply Hn. set_solver.
  - intros z (w & Hw & Hadj)%elem_of_adj_of. apply (Hstep w); [|done].
    apply Hn. set_solver.
Qed.

(** With enough fuel the search stops on an empty level, and then no edge
    leaves the set of seen nodes. *)
Lemma plain_bfs_closed fuel G (N seen next : gset nat) :
  (∀ x y, x ∈ seen → adjacent G x y → y ∈ seen ∪ next) →
  seen ⊆ N → next ⊆ N →
  (∀ x y, x ∈ N → adjacent G x y → y ∈ N) →
  size (N ∖ seen) + 2 ≤ fuel →
  closed G (nx.plain_bfs fuel G seen next).
Proof.
  intros Hadj HsN HnN HN. revert seen next Hadj HsN HnN.
  induction fuel as [|fuel IH]; intros seen next Hadj HsN HnN Hfuel; [lia|].
  simpl. case_decide as Hnext.
  { subst next. intros x y Hx Hxy. specialize (Hadj x y Hx Hxy). set_solver. }
  destruct (decide (next ∖ seen = ∅)) as [Hfresh|Hfresh].
  - rewrite Hfresh, adj_of_empty. destruct fuel as [|fuel]; [lia|]. simpl.
    rewrite decide_True by done.
    intros x y Hx Hxy. assert (x ∈ seen) as Hx' by set_solver.
    specialize (Hadj x y Hx' Hxy). clear IH HN Hxy.
    destruct (decide (y ∈ seen)) as [|Hy]; [set_solver|].
    assert (y ∈ next ∖ seen) as Hy' by set_solver.
    rewrite Hfresh in Hy'. set_solver.
  - apply IH.
    + intros x y [Hx|Hx]%elem_of_union Hxy.
      * specialize (Hadj x y Hx Hxy). apply elem_of_union_l.
        destruct (decide (y ∈ seen)); set_solver.
      * apply elem_of_union_r, elem_of_adj_of. eauto.
    + set_solver.
    + intros y (x & Hx & Hxy)%elem_of_adj_of. apply (HN x); [set_solver|done].
    + apply set_choose_L in Hfresh as [x Hx].
      assert (N ∖ (seen ∪ next ∖ seen) ⊂ N ∖ seen) as Hlt.
      { split; [set_solver|]. intros Hsub.
        assert (x ∈ N ∖ seen) as Hx' by set_solver.
        apply Hsub in Hx'. set_solver. }
      apply subset_size in Hlt. lia.
Qed.

Lemma component_of_source G v : v ∈ nx.component_of G v.
Proof.
  rewrite component_of_unfold. apply plain_bfs_seen. set_solver.
Qed.

Lemma component_of_invariant (P : nat → Prop) G v :
  (∀ x y, P x → adjacent G x y → P y) → P v →
  ∀ x, x ∈ nx.component_of G v → P x.
Proof.
  intros Hstep Hv. apply plain_bfs_invariant; [done|set_solver|].
  intros x ->%elem_of_singleton. done.
Qed.

Lemma well_formed_adjacent G x y :
  well_formed G → adjacent G x y → x ∈ nx.nodes G ∧ y ∈ nx.nodes G.
Proof. intros [_ HE] [H|H]; apply HE in H; tauto. Qed.

Lemma component_of_nodes G v x :
  well_formed G → v ∈ nx.nodes G → x ∈ nx.component_of G v → x ∈ nx.nodes G.
Proof.
  intros Hwf Hv. apply (component_of_invariant (λ x, x ∈ nx.nodes G)); [|done].
  intros a b _ Hab. by apply (well_formed_adjacent G a b).
Qed.

Lemma component_of_closed G v :
  well_formed G → v ∈ nx.nodes G → closed G (nx.component_of G v).
Proof.
  intros Hwf Hv. unfold nx.component_of.
  apply (plain_bfs_closed _ _ (list_to_set (nx.nodes G))).
  - set_solver.
  - set_solver.
  - set_solver.
  - intros x y Hx Hxy. apply elem_of_list_to_set.
    by apply (well_formed_adjacent G x y).
  - assert (size (list_to_set (nx.nodes G) ∖ (∅ : gset nat)) ≤ length (nx.nodes G)).
    { rewrite difference_empty_L, size_list_to_set by apply Hwf. done. }
    lia.
Qed.

(** A component started outside a closed set stays outside of it. *)
Lemma component_of_disjoint G (X : gset nat) v :
  closed G X → v ∉ X → nx.component_of G v ## X.
Proof.
  intros HX Hv x Hx. revert x Hx.
  apply (component_of_invariant (λ x, x ∈ X → False)); [|done].
  intros a b Ha Hab Hb. apply Ha, (HX b a); [done|]. by apply adjacent_sym.
Qed.

Lemma component_of_no_edges G v : nx.edges G = ∅ → nx.component_of G v = {[ v ]}.
Proof.
  intros HE. rewrite component_of_unfold, plain_bfs_step.
  rewrite adj_of_no_edges by done. by rewrite decide_True.
Qed.

Lemma list_of_set_perm (X : gset nat) : list_of_set X ≡ₚ elements X.
Proof. apply merge_sort_Permutation. Qed.

Lemma elem_of_list_of_set (X : gset nat) x : x ∈ list_of_set X ↔ x ∈ X.
Proof. by rewrite list_of_set_perm, elem_of_elements. Qed.

Lemma NoDup_list_of_set (X : gset nat) : NoDup (list_of_set X).
Proof. rewrite list_of_set_perm. apply NoDup_elements. Qed.

Lemma closed_empty G : closed G ∅.
Proof. intros x y Hx. set_solver. Qed.

Lemma closed_union G X Y : closed G X → closed G Y → closed G (X ∪ Y).
Proof.
  intros HX HY x y [Hx|Hx]%elem_of_union Hxy.
  - apply elem_of_union_l. by apply (HX x).
  - apply elem_of_union_r. by apply (HY x).
Qed.

(** The components found from [vs] on list every node of [vs] that was not
    seen before exactly once, and nothing that was seen. *)
Lemma components_from_partition G vs seen :
  well_formed G → closed G seen → (∀ x, x ∈ vs → x ∈ nx.nodes G) →
  NoDup (concat (map list_of_set (nx.components_from G vs seen))) ∧
  (∀ x, x ∈ concat (map list_of_set (nx.components_from G vs seen)) →
        (x ∉ seen) ∧ x ∈ nx.nodes G) ∧
  (∀ x, x ∈ vs →
        x ∈ seen ∨ x ∈ concat (map list_of_set (nx.components_from G vs seen))).
Proof.
  intros Hwf. revert seen.
  induction vs as [|v vs IH]; intros seen Hseen Hvs; simpl.
  { split; [constructor|]. split; intros x Hx; inversion Hx. }
  assert (∀ x, x ∈ vs → x ∈ nx.nodes G) as Hvs'.
  { intros x Hx. apply Hvs. by right. }
  case_decide as Hv.
  - destruct (IH seen Hseen Hvs') as (IH1 & IH2 & IH3).
    split; [done|]. split; [done|].
    intros x [->|Hx]%elem_of_cons; auto.
  - assert (v ∈ nx.nodes G) as HvG by (apply Hvs; by left).
    pose proof (component_of_closed G v Hwf HvG) as Hc.
    pose proof (component_of_disjoint G seen v Hseen Hv) as Hd.
    destruct (IH (seen ∪ nx.component_of G v) (closed_union _ _ _ Hseen Hc) Hvs')
      as (IH1 & IH2 & IH3).
    simpl. split; [|split].
    + apply NoDup_app. split; [apply NoDup_list_of_set|]. split; [|done].
      intros x Hx%elem_of_list_of_set Hx'. apply IH2 in Hx' as [Hx' _].
      set_solver.
    + intros x [Hx%elem_of_list_of_set|Hx]%elem_of_app.
      * split; [set_solver|]. by apply (component_of_nodes G v).
      * apply IH2 in Hx as [Hx ?]. split; [set_solver|done].
    + intros x [->|Hx]%elem_of_cons.
      * right. apply elem_of_app. left. apply elem_of_list_of_set.
        apply component_of_source.
      * destruct (IH3 x Hx) as [[?|?]%elem_of_union|?]; auto.
        -- right. apply elem_of_app. left. by apply elem_of_list_of_set.
        -- right. apply elem_of_app. by right.
Qed.

(** The connected components partition the nodes. *)
Lemma connected_components_partition G :
  well_formed G →
  concat (map list_of_set (nx.connected_components G)) ≡ₚ nx.nodes G.
Proof.
  intros Hwf. unfold nx.connected_components.
  destruct (components_from_partition G (nx.nodes G) ∅ Hwf (closed_empty G))
    as (H1 & H2 & H3); [done|].
  apply NoDup_Permutation; [done|apply Hwf|].
  intros x. split; [intros Hx; by apply H2|].
  intros Hx. destruct (H3 x Hx) as [?|?]; [set_solver|done].
Qed.

Lemma components_from_no_edges G vs seen :
  nx.edges G = ∅ → NoDup vs → (∀ x, x ∈ vs → x ∉ seen) →
  nx.components_from G vs seen = map singleton vs.
Proof.
  intros HE. revert seen.
  induction vs as [|v vs IH]; intros seen Hnd Hvs; simpl; [done|].
  apply NoDup_cons in Hnd as [Hv Hnd].
  rewrite decide_False by (apply Hvs; by left).
  rewrite component_of_no_edges by done. f_equal. apply IH; [done|].
  intros x Hx [? | ->%elem_of_singleton]%elem_of_union; [|done].
  apply (Hvs x); [by right|done].
Qed.

(** Without edges every node is a component of its own. *)
Lemma connected_components_no_edges G :
  nx.edges G = ∅ → NoDup (nx.nodes G) →
  length (nx.connected_components G) = length (nx.nodes G).
Proof.
  intros HE Hnd. unfold nx.connected_components.
  rewrite components_from_no_edges by (done || set_solver).
  by rewrite length_map.
Qed.

(** ** Pairs of samples *)

Lemma elem_of_combinations2 {A} (l : list A) a b :
  (a, b) ∈ combinations2 l → a ∈ l ∧ b ∈ l.
Proof.
  induction l as [|x l IH]; simpl; [by intros ?%elem_of_nil|].
  intros [H|H]%elem_of_app.
  - apply list_elem_of_fmap in H as (y & [= -> ->] & Hy).
    split; [by left | by right].
  - destruct (IH H). split; by right.
Qed.

(** A duplicate-free list has each unordered pair once, in one orientation. *)
Lemma combinations2_NoDup {A} (l : list A) :
  NoDup l →
  NoDup (combinations2 l) ∧
  ∀ a b, (a, b) ∈ combinations2 l → a ≠ b ∧ (b, a) ∉ combinations2 l.
Proof.
  induction 1 as [|x l Hx Hnd [IH1 IH2]]; simpl.
  { split; [constructor|]. by intros a b ?%elem_of_nil. }
  split.
  - apply NoDup_app. split; [|split; [|done]].
    + apply NoDup_fmap_2; [|done]. by intros ?? [=].
    + intros [a b] (y & [= -> ->] & Hy)%list_elem_of_fmap Hc.
      by apply elem_of_combinations2 in Hc as [? _].
  - intros a b [H|H]%elem_of_app.
    + apply list_elem_of_fmap in H as (y & [= -> ->] & Hy).
      split; [by intros ->|].
      intros [H|H]%elem_of_app.
      * apply list_elem_of_fmap in H as (z & [= -> ->] & Hz). done.
      * by apply elem_of_combinations2 in H as [_ ?].
    + destruct (IH2 a b H) as [Hab Hba]. split; [done|].
      intros [H'|H']%elem_of_app; [|done].
      apply list_elem_of_fmap in H' as (z & [= -> ->] & Hz).
      by apply elem_of_combinations2 in H as [_ ?].
Qed.

(** ** The similarity graph *)

Lemma similarity_valid self i j :
  i < length (unique_character_matrix self) →
  j < length (unique_character_matrix self) →
  similarity self i j = Ok (edge_weight self (i, j)).
Proof.
  intros [ri Hi]%lookup_lt_is_Some_2 [rj Hj]%lookup_lt_is_Some_2.
  unfold similarity, row, edge_weight, row_of. simpl. by rewrite Hi, Hj.
Qed.

Lemma add_node_edges v G : nx.edges (nx.add_node v G) = nx.edges G.
Proof. unfold nx.add_node. by case_decide. Qed.

Lemma add_node_present v G : v ∈ nx.nodes G → nx.add_node v G = G.
Proof. intros Hv. unfold nx.add_node. by rewrite decide_True. Qed.

Lemma add_edge_nodes u v G :
  u ∈ nx.nodes G → v ∈ nx.nodes G → nx.nodes (nx.add_edge u v G) = nx.nodes G.
Proof.
  intros Hu Hv. unfold nx.add_edge. simpl.
  rewrite (add_node_present u G) by done. by rewrite (add_node_present v G).
Qed.

Lemma add_nodes_edges vs G :
  nx.edges (foldl (λ G v, nx.add_node v G) G vs) = nx.edges G.
Proof.
  revert G. induction vs as [|v vs IH]; intros G; simpl; [done|].
  by rewrite IH, add_node_edges.
Qed.

Lemma add_nodes_nodes vs G :
  NoDup (nx.nodes G ++ vs) →
  nx.nodes (foldl (λ G v, nx.add_node v G) G vs) = nx.nodes G ++ vs.
Proof.
  revert G. induction vs as [|v vs IH]; intros G Hnd; simpl.
  { by rewrite app_nil_r. }
  assert (v ∉ nx.nodes G) as Hv.
  { apply NoDup_app in Hnd as (_ & Hd & _). intros Hv.
    apply (Hd v Hv). by left. }
  rewrite IH; unfold nx.add_node; rewrite decide_False by done; simpl.
  - by rewrite <-app_assoc.
  - by rewrite <-app_assoc.
Qed.

Lemma add_nodes_spec vs G :
  NoDup (nx.nodes G) →
  NoDup (nx.nodes (foldl (λ G v, nx.add_node v G) G vs)) ∧
  ∀ x, x ∈ nx.nodes (foldl (λ G v, nx.add_node v G) G vs) ↔ x ∈ nx.nodes G ∨ x ∈ vs.
Proof.
  revert G. induction vs as [|v vs IH]; intros G Hnd; simpl.
  { split; [done|]. intros x. split; [auto|]. by intros [?|?%elem_of_nil]. }
  destruct (IH (nx.add_node v G)) as [IH1 IH2].
  { unfold nx.add_node. case_decide; [done|]. simpl.
    apply NoDup_app. split; [done|]. split; [|apply NoDup_singleton].
    by intros x Hx ->%list_elem_of_singleton. }
  split; [done|]. intros x. rewrite IH2, elem_of_cons.
  unfold nx.add_node. case_decide as Hv; simpl.
  - split; [tauto|]. intros [?|[->|?]]; auto.
  - rewrite elem_of_app, list_elem_of_singleton. tauto.
Qed.

Lemma bucket_insert (m : gmap Z (list (nat * nat))) s es w :
  bucket (<[ s := es ]> m) w = if decide (s = w) then es else bucket m w.
Proof.
  unfold bucket. rewrite lookup_insert. by case_decide.
Qed.

(** What the loop of lines 116-125 leaves in the graph and in the buckets. *)
Lemma add_pairs_spec self ps G0 m0 :
  Forall (λ e : nat * nat, e.1 < length (unique_character_matrix self)
                         ∧ e.2 < length (unique_character_matrix self)) ps →
  ∃ G m,
    for_each (add_pair self) ps (G0, m0) = Ok (G, m) ∧
    nx.edges G =
      nx.edges G0 ∪ list_to_set (filter (λ e, (threshold self ≤ edge_weight self e)%Z) ps) ∧
    (∀ w, bucket m w =
          bucket m0 w ++
          filter (λ e, edge_weight self e = w)
                 (filter (λ e, (threshold self ≤ edge_weight self e)%Z) ps)) ∧
    dom m =
      dom m0 ∪ list_to_set (edge_weight self <$>
                 filter (λ e, (threshold self ≤ edge_weight self e)%Z) ps) ∧
    ((∀ e, e ∈ ps → e.1 ∈ nx.nodes G0 ∧ e.2 ∈ nx.nodes G0) →
     nx.nodes G = nx.nodes G0).
Proof.
  intros Hvalid. revert G0 m0.
  induction Hvalid as [|[i j] ps [Hi Hj] _ IH]; intros G0 m0.
  { exists G0, m0. simpl. split; [done|]. split; [set_solver|].
    split; [intros w; by rewrite app_nil_r|]. split; [set_solver|done]. }
  simpl in Hi, Hj. simpl. rewrite similarity_valid by done. simpl.
  case_bool_decide as Hthr.
  - destruct (IH (nx.add_edge i j G0)
                 (<[ edge_weight self (i, j) :=
                       bucket m0 (edge_weight self (i, j)) ++ [(i, j)] ]> m0))
      as (G & m & Hrun & HE & Hb & Hd & Hn).
    exists G, m. split; [done|].
    rewrite filter_cons_True by done. split; [|split; [|split]].
    + rewrite HE. simpl. rewrite !add_node_edges. set_solver.
    + intros w. rewrite Hb, bucket_insert.
      case_decide as Hw.
      * rewrite filter_cons_True by done. subst w. by rewrite <-app_assoc.
      * by rewrite filter_cons_False by done.
    + rewrite Hd, dom_insert_L. set_solver.
    + intros Hps. rewrite Hn.
      * destruct (Hps (i, j)) as [? ?]; [by left|]. by apply add_edge_nodes.
      * intros e He. destruct (Hps (i, j)) as [? ?]; [by left|].
        rewrite add_edge_nodes by done. apply Hps. by right.
  - destruct (IH G0 m0) as (G & m & Hrun & HE & Hb & Hd & Hn).
    exists G, m. split; [done|].
    rewrite filter_cons_False by done. split; [done|]. split; [done|].
    split; [done|]. intros Hps. apply Hn. intros e He. apply Hps. by right.
Qed.

Lemma valid_rows_pairs self samples :
  valid_rows self samples →
  Forall (λ e : nat * nat, e.1 < length (unique_character_matrix self)
                         ∧ e.2 < length (unique_character_matrix self))
         (combinations2 samples).
Proof.
  intros Hv. apply Forall_forall. intros [a b] [Ha Hb]%elem_of_combinations2.
  unfold valid_rows in Hv. rewrite Forall_forall in Hv. simpl. auto.
Qed.

(** The similarity graph of valid samples: its edges are the pairs scoring
    at or above the threshold, bucketed by score. *)
Lemma similarity_graph_spec self samples :
  valid_rows self samples →
  ∃ G m,
    similarity_graph self samples = Ok (G, m) ∧
    nx.edges G = list_to_set (similar_pairs self samples) ∧
    (∀ w, bucket m w =
          filter (λ e, edge_weight self e = w) (similar_pairs self samples)) ∧
    dom m = list_to_set (edge_weight self <$> similar_pairs self samples) ∧
    (NoDup samples → nx.nodes G = samples) ∧
    NoDup (nx.nodes G) ∧
    (∀ x, x ∈ nx.nodes G ↔ x ∈ samples).
Proof.
  intros Hv. unfold similarity_graph.
  destruct (add_pairs_spec self (combinations2 samples)
              (foldl (λ G v, nx.add_node v G) nx.empty samples) ∅
              (valid_rows_pairs self samples Hv))
    as (G & m & Hrun & HE & Hb & Hd & Hn).
  exists G, m. split; [done|]. rewrite add_nodes_edges in HE. simpl in HE.
  split; [rewrite HE; unfold similar_pairs; set_solver|].
  split; [intros w; by rewrite Hb|].
  split; [rewrite Hd; unfold similar_pairs; set_solver|].
  destruct (add_nodes_spec samples nx.empty) as [Hnd0 Hin0]; [constructor|].
  rewrite Hn.
  - split; [intros Hnd; by rewrite add_nodes_nodes|]. split; [done|].
    intros x. rewrite Hin0. simpl. split; [|auto].
    intros [?%elem_of_nil|?]; [done|auto].
  - intros [a b] [Ha Hb']%elem_of_combinations2. simpl.
    rewrite !Hin0. auto.
Qed.

(** ** Percolation *)

#[local] Instance descending_total : Total descending.
Proof. intros a b. unfold descending. lia. Qed.

#[local] Instance descending_trans : Transitive descending.
Proof. intros a b c. unfold descending. lia. Qed.

Lemma StronglySorted_le_lt (l : list Z) :
  StronglySorted Z.le l → NoDup l → StronglySorted Z.lt l.
Proof.
  induction 1 as [|x l _ IH Hx]; intros Hnd; [constructor|].
  apply NoDup_cons in Hnd as [Hxl Hnd]. constructor; [by apply IH|].
  rewrite Forall_forall in Hx |- *. intros y Hy.
  specialize (Hx y Hy). assert (x ≠ y) by (by intros ->). lia.
Qed.

(** The order of the pops: the keys of the buckets, smallest first. *)
Lemma pops_sorted (m : gmap Z (list (nat * nat))) :
  StronglySorted Z.lt (reverse (sorted_reverse m)) ∧
  ∀ w, w ∈ reverse (sorted_reverse m) ↔ w ∈ dom m.
Proof.
  unfold sorted_reverse. split.
  - apply StronglySorted_le_lt.
    + apply (Sorted_StronglySorted Z.le).
      apply (Sorted_reverse descending), Sorted_merge_sort, _.
    + rewrite reverse_Permutation, merge_sort_Permutation. apply NoDup_elements.
  - intros w. by rewrite elem_of_reverse, merge_sort_Permutation, elem_of_elements.
Qed.

Lemma remove_edges_spec es G :
  NoDup es →
  (∀ e, e ∈ es → e ∈ nx.edges G) →
  (∀ i j, (i, j) ∈ nx.edges G → (j, i) ∉ nx.edges G) →
  remove_edges es G = Ok (nx.mkGraph (nx.nodes G) (nx.edges G ∖ list_to_set es)).
Proof.
  unfold remove_edges. revert G.
  induction es as [|[i j] es IH]; intros [ns E] Hnd Hin Hor; simpl in *.
  { f_equal. f_equal. set_solver. }
  apply NoDup_cons in Hnd as [Hij Hnd].
  assert ((i, j) ∈ E) as HijE by (apply Hin; by left).
  unfold nx.remove_edge, nx.has_edge. simpl.
  rewrite bool_decide_eq_true_2 by (by left). simpl.
  rewrite IH; simpl.
  - f_equal. f_equal. apply set_eq. intros [a b].
    specialize (Hor i j HijE). set_solver.
  - done.
  - intros e He. assert (e ≠ (i, j)) by (by intros ->).
    assert (e ∈ E) as HeE by (apply Hin; by right).
    assert (e ≠ (j, i)) by (intros ->; by apply (Hor i j)).
    set_solver.
  - intros a b Hab Hba. apply (Hor a b); set_solver.
Qed.

Lemma similar_pairs_NoDup self samples :
  NoDup samples →
  NoDup (similar_pairs self samples) ∧
  ∀ i j, (i, j) ∈ similar_pairs self samples →
         i ≠ j ∧ i ∈ samples ∧ j ∈ samples ∧ (j, i) ∉ similar_pairs self samples.
Proof.
  intros Hnd. destruct (combinations2_NoDup samples Hnd) as [H1 H2].
  unfold similar_pairs. split; [by apply NoDup_filter|].
  intros i j [_ Hij]%list_elem_of_filter.
  destruct (H2 i j Hij) as [? Hji].
  destruct (elem_of_combinations2 samples i j Hij) as [? ?].
  do 3 (split; [done|]). by intros [_ ?]%list_elem_of_filter.
Qed.

(** While it is percolating the graph is a well-formed graph on the
    samples. *)
Lemma percolating_well_formed self samples st :
  NoDup samples → percolating self samples st → well_formed st.1.
Proof.
  intros Hnd (Hn & _ & _ & HE). split; [by rewrite Hn|].
  intros u v. rewrite HE, elem_of_list_to_set, Hn.
  intros [_ Huv]%list_elem_of_filter.
  apply similar_pairs_NoDup in Huv; tauto.
Qed.

(** A round from a percolating state: it does not raise, it removes exactly
    the edges of the least weight present, and the state stays percolating. *)
Lemma percolation_round_spec self samples m G w pops :
  NoDup samples →
  (∀ w, bucket m w = filter (λ e, edge_weight self e = w) (similar_pairs self samples)) →
  percolating self samples (G, w :: pops) →
  ∃ G',
    remove_edges (bucket m w) G = Ok G' ∧
    percolating self samples (G', pops) ∧
    least_weight self G w ∧
    (∀ e, e ∈ nx.edges G' ↔ e ∈ nx.edges G ∧ edge_weight self e ≠ w).
Proof.
  intros Hnd Hb (Hn & Hs & Hk & HE). simpl in *.
  destruct (similar_pairs_NoDup self samples Hnd) as [Hnd' Hor].
  apply StronglySorted_cons in Hs as [Hlt Hs]. rewrite Forall_forall in Hlt.
  eexists. split; [|split; [|split]].
  - rewrite Hb. apply remove_edges_spec.
    + by apply NoDup_filter.
    + intros e [He1 He2]%list_elem_of_filter. rewrite HE, elem_of_list_to_set.
      apply list_elem_of_filter. split; [|done]. rewrite He1. by left.
    + intros i j. rewrite HE, !elem_of_list_to_set.
      intros [_ Hij]%list_elem_of_filter [_ Hji]%list_elem_of_filter.
      by apply Hor in Hij as (_ & _ & _ & ?).
  - split; [done|]. split; [done|]. simpl. split.
    + intros w' Hw'. apply Hk. by right.
    + apply set_eq. intros e. rewrite HE.
      rewrite elem_of_difference, !elem_of_list_to_set, !list_elem_of_filter.
      rewrite elem_of_cons. split.
      * intros [[[->|?] ?] Hne]; [|done]. destruct Hne. done.
      * intros [Hin ?]. split; [auto|]. intros [<- _].
        specialize (Hlt _ Hin). lia.
  - split.
    + destruct (Hk w) as (e & He & Hw); [by left|]. exists e. split; [|done].
      rewrite HE, elem_of_list_to_set. apply list_elem_of_filter.
      split; [|done]. rewrite Hw. by left.
    + intros e. rewrite HE, elem_of_list_to_set.
      intros [[->|Hin]%elem_of_cons _]%list_elem_of_filter; [lia|].
      specialize (Hlt _ Hin). lia.
  - intros e. simpl. rewrite HE.
    rewrite elem_of_difference, !elem_of_list_to_set, !list_elem_of_filter.
    split.
    + intros [[? ?] Hne]. split; [done|]. intros Hw. apply Hne. done.
    + intros [[? ?] Hne]. split; [done|]. intros [? _]. done.
Qed.

Lemma percolating_initial self samples G m :
  nx.nodes G = samples →
  nx.edges G = list_to_set (similar_pairs self samples) →
  dom m = list_to_set (edge_weight self <$> similar_pairs self samples) →
  percolating self samples (G, reverse (sorted_reverse m)).
Proof.
  intros Hn HE Hd. destruct (pops_sorted m) as [Hs Hk].
  assert (∀ w, w ∈ reverse (sorted_reverse m) ↔
               ∃ e, e ∈ similar_pairs self samples ∧ edge_weight self e = w) as Hk'.
  { intros w. rewrite Hk, Hd, elem_of_list_to_set, list_elem_of_fmap.
    naive_solver. }
  split; [done|]. split; [done|]. simpl. split; [intros w; apply Hk'|].
  rewrite HE. apply set_eq. intros e.
  rewrite !elem_of_list_to_set, list_elem_of_filter. split; [|tauto].
  intros He. split; [|done]. apply Hk'. eauto.
Qed.

(** The loop is its round, repeated while the guard holds. *)
Lemma percolate_unfold m pops G :
  percolate m pops G =
  if decide (length (nx.connected_components G) ≤ 1)
  then '(G', pops') ← percolation_round m (G, pops) ; percolate m pops' G'
  else Ok (G, pops).
Proof.
  destruct pops as [|w pops]; simpl; case_decide; try done.
  unfold percolation_round. simpl.
  by destruct (remove_edges (bucket m w) G).
Qed.

(** From a percolating state on two samples or more the loop does not raise:
    it runs rounds until the graph has two components or more. *)
Lemma percolate_spec self samples m pops G :
  NoDup samples → 2 ≤ length samples →
  (∀ w, bucket m w = filter (λ e, edge_weight self e = w) (similar_pairs self samples)) →
  percolating self samples (G, pops) →
  ∃ G' rest,
    percolate m pops G = Ok (G', rest) ∧
    percolating self samples (G', rest) ∧
    2 ≤ length (nx.connected_components G') ∧
    rtc (percolation_step m) (G, pops) (G', rest).
Proof.
  intros Hnd Hlen Hb. revert G.
  induction pops as [|w pops IH]; intros G HP; simpl.
  - assert (length (nx.connected_components G) = length samples) as Hcc.
    { destruct HP as (Hn & _ & _ & HE). simpl in *.
      rewrite connected_components_no_edges; [by rewrite Hn| |by rewrite Hn].
      rewrite HE. apply set_eq. intros e.
      rewrite elem_of_list_to_set, list_elem_of_filter.
      split; [intros [?%elem_of_nil _]; done | set_solver]. }
    rewrite decide_False by lia.
    exists G, []. split; [done|]. split; [done|]. split; [lia|done].
  - case_decide as Hcc.
    + destruct (percolation_round_spec self samples m G w pops Hnd Hb HP)
        as (G1 & Hrun & HP1 & _).
      rewrite Hrun. simpl.
      destruct (IH G1 HP1) as (G' & rest & Hrun' & HP' & Hcc' & Hrtc).
      exists G', rest. split; [done|]. split; [done|]. split; [done|].
      eapply rtc_l; [|exact Hrtc]. split; [done|].
      unfold percolation_round. simpl. by rewrite Hrun.
    + exists G, (w :: pops). split; [done|]. split; [done|]. split; [lia|done].
Qed.

(** Every state the loop passes through is percolating. *)
Lemma percolation_steps_percolating self samples m st st' :
  NoDup samples →
  (∀ w, bucket m w = filter (λ e, edge_weight self e = w) (similar_pairs self samples)) →
  percolating self samples st →
  rtc (percolation_step m) st st' →
  percolating self samples st'.
Proof.
  intros Hnd Hb HP Hrtc. induction Hrtc as [|[G pops] [G1 pops1] st' [_ Hstep] _ IH];
    [done|].
  apply IH. unfold percolation_round in Hstep. simpl in Hstep.
  destruct pops as [|w pops]; [done|].
  destruct (percolation_round_spec self samples m G w pops Hnd Hb HP)
    as (G' & Hrun & HP' & _).
  rewrite Hrun in Hstep. simpl in Hstep. by injection Hstep as <- <-.
Qed.

(** ** Trees and neighbor joining *)

Lemma Tree_nested_ind (P : Tree → Prop) :
  (∀ n, P (Leaf n)) →
  (∀ cs, Forall P cs → P (Internal cs)) →
  ∀ t, P t.
Proof.
  intros Hleaf Hnode. fix IH 1. intros [n|cs]; [apply Hleaf|].
  apply Hnode. induction cs as [|c cs IHcs]; constructor; [apply IH|apply IHcs].
Qed.

Lemma splice_unifurcations_leaves t :
  get_leaves (splice_unifurcations t) = get_leaves t.
Proof.
  induction t as [n|cs IH] using Tree_nested_ind; simpl; [done|].
  assert (concat (map get_leaves (map splice_unifurcations cs))
          = concat (map get_leaves cs)) as Heq.
  { induction IH as [|c cs Hc _ IHcs]; simpl; [done|]. by rewrite Hc, IHcs. }
  destruct (map splice_unifurcations cs) as [|c [|c' cs']]; simpl in *;
    try done.
  by rewrite app_nil_r in Heq.
Qed.

Lemma select_perm {A} (l : list A) y r :
  (y, r) ∈ NeighborJoining.select l → y :: r ≡ₚ l.
Proof.
  revert y r. induction l as [|x l IH]; intros y r; simpl.
  { by intros ?%elem_of_nil. }
  intros [[= -> ->]|H]%elem_of_cons; [done|].
  apply list_elem_of_fmap in H as ([y' r'] & [= -> ->] & H). simpl.
  rewrite Permutation_swap. by rewrite (IH _ _ H).
Qed.

Lemma pairs_perm {A} (l : list A) x y r :
  (x, y, r) ∈ NeighborJoining.pairs l → x :: y :: r ≡ₚ l.
Proof.
  revert x y r. induction l as [|z l IH]; intros x y r; simpl.
  { by intros ?%elem_of_nil. }
  intros [H|H]%elem_of_app.
  - apply list_elem_of_fmap in H as ([y' r'] & [= -> -> ->] & H). simpl.
    by rewrite (select_perm _ _ _ H).
  - apply list_elem_of_fmap in H as ([[x' y'] r'] & [= -> -> ->] & H). simpl.
    rewrite <-(IH _ _ _ H). symmetry.
    etrans; [apply perm_swap|]. apply perm_skip, perm_swap.
Qed.

Lemma pairs_nonempty {A} (l : list A) :
  2 ≤ length l → NeighborJoining.pairs l ≠ [].
Proof. destruct l as [|x [|y l]]; simpl; [lia|lia|done]. Qed.

Lemma argmin_elem_of {A} (f : A → Q) l x :
  NeighborJoining.argmin f l = Some x → x ∈ l.
Proof.
  revert x. induction l as [|y l IH]; intros x; simpl; [done|].
  destruct (NeighborJoining.argmin f l) as [z|].
  - destruct (Qle_bool (f y) (f z)); intros [= <-]; [by left|].
    right. by apply IH.
  - intros [= <-]. by left.
Qed.

Lemma argmin_is_Some {A} (f : A → Q) l :
  l ≠ [] → is_Some (NeighborJoining.argmin f l).
Proof.
  destruct l as [|y l]; [done|]. intros _. simpl.
  destruct (NeighborJoining.argmin f l) as [z|]; [|by eexists].
  destruct (Qle_bool (f y) (f z)); by eexists.
Qed.

(** A join replaces two nodes by one and keeps the taxa. *)
Lemma join_spec st :
  2 ≤ length (NeighborJoining.active st) →
  S (length (NeighborJoining.active (NeighborJoining.join st)))
    = length (NeighborJoining.active st) ∧
  taxa_of (NeighborJoining.join st) ≡ₚ taxa_of st.
Proof.
  intros Hlen. unfold NeighborJoining.join.
  destruct (argmin_is_Some
              (λ c, NeighborJoining.corrected st c.1.1.1 c.1.2.1)
              (NeighborJoining.pairs (NeighborJoining.active st))
              (pairs_nonempty _ Hlen)) as [[[[i ti] [j tj]] others] Hmin].
  rewrite Hmin. apply argmin_elem_of, pairs_perm in Hmin.
  unfold taxa_of. simpl. split.
  - rewrite <-Hmin, length_app. simpl. lia.
  - rewrite <-Hmin, map_app, concat_app. simpl.
    rewrite !app_nil_r. rewrite Permutation_app_comm. by rewrite <-app_assoc.
Qed.

Lemma joins_spec n st :
  n + 2 ≤ length (NeighborJoining.active st) →
  length (NeighborJoining.active (NeighborJoining.joins n st)) + n
    = length (NeighborJoining.active st) ∧
  taxa_of (NeighborJoining.joins n st) ≡ₚ taxa_of st.
Proof.
  revert st. induction n as [|n IH]; intros st Hlen; simpl.
  { split; [lia|done]. }
  destruct (join_spec st) as [Hl Hp]; [lia|].
  destruct (IH (NeighborJoining.join st)) as [Hl' Hp']; [lia|].
  split; [lia|]. by rewrite Hp'.
Qed.

(** Neighbor joining on two taxa or more ends with a root over two subtrees
    that share out the taxa. *)
Lemma solve_spec character_matrix d :
  2 ≤ length character_matrix →
  ∃ a b,
    NeighborJoining.solve character_matrix d = Internal [a; b] ∧
    get_leaves a ++ get_leaves b ≡ₚ seq 0 (length character_matrix).
Proof.
  intros Hlen. unfold NeighborJoining.solve.
  set (st0 := NeighborJoining.mkState _ _ _).
  assert (length (NeighborJoining.active st0) = length character_matrix) as Hl0.
  { unfold st0. simpl. by rewrite length_map, length_seq. }
  assert (taxa_of st0 = seq 0 (length character_matrix)) as Ht0.
  { unfold st0, taxa_of. simpl. generalize (seq 0 (length character_matrix)).
    intros l. induction l as [|x l IH]; simpl; [done|]. by rewrite IH. }
  destruct (joins_spec (length character_matrix - 2) st0) as [Hl Hp]; [lia|].
  rewrite Ht0 in Hp. rewrite Hl0 in Hl. unfold taxa_of in Hp. revert Hl Hp.
  generalize (NeighborJoining.active
                (NeighborJoining.joins (length character_matrix - 2) st0)).
  intros [|[i a] [|[j b] [|? ?]]] Hl Hp; simpl in Hl; try lia.
  exists a, b. split; [done|]. simpl in Hp. by rewrite app_nil_r in Hp.
Qed.

(** The root of the joined tree has two child subtrees, and these share out
    the components. *)
Lemma clusters_of_spec self lcas :
  2 ≤ length lcas →
  ∃ c1 c2,
    clusters_of self lcas = [c1; c2] ∧ c1 ++ c2 ≡ₚ seq 0 (length lcas).
Proof.
  intros Hlen. unfold clusters_of.
  destruct (solve_spec lcas
    (λ s1 s2, inject_Z (negative_similarity self s1 s2 (missing_char self) (weights self)))
    Hlen) as (a & b & -> & Hp).
  simpl. eexists _, _. split; [done|].
  by rewrite !splice_unifurcations_leaves.
Qed.

(** ** Merging components *)

Lemma row_valid self i :
  i < length (unique_character_matrix self) → row self i = Ok (row_of self i).
Proof.
  intros [r Hr]%lookup_lt_is_Some_2. unfold row, row_of. by rewrite Hr.
Qed.

Lemma lookup_all {A} (l : list (list A)) :
  map (λ i, default [] (l !! i)) (seq 0 (length l)) = l.
Proof.
  apply list_eq. intros i. rewrite list_lookup_fmap.
  destruct (decide (i < length l)) as [Hi|Hi].
  - rewrite lookup_seq_lt by done. simpl.
    apply lookup_lt_is_Some_2 in Hi as [x Hx]. by rewrite Hx.
  - rewrite lookup_seq_ge by lia. simpl. symmetry. apply lookup_ge_None_2. lia.
Qed.

Lemma nodes_of_cluster components cluster :
  (∀ c, c ∈ cluster → c < length components) →
  comprehension (nodes_of components) cluster
  = Ok (map (λ c, default [] (components !! c)) cluster).
Proof.
  intros Hc. apply comprehension_total, Forall_forall. intros c Hin.
  apply Hc, lookup_lt_is_Some_2 in Hin as [x Hx].
  unfold nodes_of. by rewrite Hx.
Qed.

(** The merge of two components or more returns two groups: the member
    samples of the two clusters of components at the root of the joined
    tree. *)
Lemma merge_components_spec self components :
  Forall (valid_rows self) components →
  2 ≤ length components →
  ∃ c1 c2,
    clusters_of self (lca_matrix self components) = [c1; c2] ∧
    c1 ++ c2 ≡ₚ seq 0 (length components) ∧
    merge_components self components
      = Ok [expand components c1; expand components c2] ∧
    expand components c1 ++ expand components c2 ≡ₚ concat components.
Proof.
  intros Hvalid Hlen.
  destruct (clusters_of_spec self (lca_matrix self components))
    as (c1 & c2 & Hcl & Hperm).
  { unfold lca_matrix. by rewrite length_map. }
  unfold lca_matrix in Hperm. rewrite length_map in Hperm.
  exists c1, c2. split; [done|]. split; [done|].
  assert (∀ c, c ∈ c1 ++ c2 → c < length components) as Hlt.
  { intros c. rewrite Hperm, list_elem_of_In, in_seq. lia. }
  split.
  - unfold merge_components.
    rewrite (comprehension_total _
      (λ component, get_lca_characters (map (row_of self) component)
                                       (missing_char self))).
    + simpl. fold (lca_matrix self components). rewrite Hcl. simpl.
      rewrite !nodes_of_cluster; [done| |].
      * intros c Hc. apply Hlt, elem_of_app. by left.
      * intros c Hc. apply Hlt, elem_of_app. by right.
    + eapply Forall_impl; [exact Hvalid|]. intros component Hcomp. simpl.
      rewrite (comprehension_total _ (row_of self)); [done|].
      eapply Forall_impl; [exact Hcomp|]. intros i Hi. by apply row_valid.
  - unfold expand. rewrite <-concat_app, <-map_app, Hperm.
    by rewrite lookup_all.
Qed.

(** ** The split *)

Lemma two_elements {A} (l : list A) x y : x ≠ y → x ∈ l → y ∈ l → 2 ≤ length l.
Proof.
  intros Hne Hx Hy. destruct l as [|a [|b l]]; simpl; [|
    apply list_elem_of_singleton in Hx, Hy; congruence | lia].
  by apply elem_of_nil in Hx.
Qed.

Lemma percolating_two_samples self samples st :
  NoDup samples → percolating self samples st → nx.edges st.1 ≠ ∅ →
  2 ≤ length samples.
Proof.
  intros Hnd (_ & _ & _ & HE) Hedges.
  apply set_choose_L in Hedges as [[i j] Hij].
  rewrite HE, elem_of_list_to_set in Hij.
  apply list_elem_of_filter in Hij as [_ Hij].
  apply (similar_pairs_NoDup self samples Hnd) in Hij as (? & ? & ? & _).
  by apply (two_elements samples i j).
Qed.

(** What [perform_split] computes on a duplicate-free list of valid rows:
    either no pair is similar and the samples are returned whole, or the
    percolation runs to two components or more, which partition the samples
    and are returned as they are (two) or merged into two groups (more). *)
Lemma perform_split_spec self samples :
  NoDup samples → valid_rows self samples →
  ∃ G m,
    similarity_graph self samples = Ok (G, m) ∧
    percolating self samples (G, reverse (sorted_reverse m)) ∧
    (∀ w, bucket m w = filter (λ e, edge_weight self e = w) (similar_pairs self samples)) ∧
    ((nx.edges G = ∅ ∧ perform_split self samples = Ok [samples; []]) ∨
     (nx.edges G ≠ ∅ ∧
      ∃ G' rest,
        percolate m (reverse (sorted_reverse m)) G = Ok (G', rest) ∧
        rtc (percolation_step m) (G, reverse (sorted_reverse m)) (G', rest) ∧
        2 ≤ length (nx.connected_components G') ∧
        concat (map list_of_set (nx.connected_components G')) ≡ₚ samples ∧
        ((length (nx.connected_components G') = 2 ∧
          perform_split self samples
            = Ok (map list_of_set (nx.connected_components G'))) ∨
         (2 < length (nx.connected_components G') ∧
          ∃ c1 c2,
            clusters_of self
              (lca_matrix self (map list_of_set (nx.connected_components G')))
              = [c1; c2] ∧
            c1 ++ c2 ≡ₚ seq 0 (length (nx.connected_components G')) ∧
            perform_split self samples
              = Ok [expand (map list_of_set (nx.connected_components G')) c1;
                    expand (map list_of_set (nx.connected_components G')) c2] ∧
            expand (map list_of_set (nx.connected_components G')) c1
              ++ expand (map list_of_set (nx.connected_components G')) c2
              ≡ₚ concat (map list_of_set (nx.connected_components G')))))).
Proof.
  intros Hnd Hvalid.
  destruct (similarity_graph_spec self samples Hvalid)
    as (G & m & Hbuild & HE & Hb & Hd & Hn & _).
  specialize (Hn Hnd).
  pose proof (percolating_initial self samples G m Hn HE Hd) as HP.
  exists G, m. split; [done|]. split; [done|]. split; [done|].
  unfold perform_split. rewrite Hbuild. simpl. unfold nx.no_edges.
  case_bool_decide as Hedges; [left; done|]. right. split; [done|].
  pose proof (percolating_two_samples self samples _ Hnd HP Hedges) as Hlen.
  destruct (percolate_spec self samples m _ G Hnd Hlen Hb HP)
    as (G' & rest & Hrun & HP' & Hcc & Hrtc).
  exists G', rest. rewrite Hrun. simpl. split; [done|]. split; [done|].
  split; [done|].
  pose proof (percolating_well_formed self samples _ Hnd HP') as Hwf.
  pose proof (connected_components_partition G' Hwf) as Hpart.
  destruct HP' as (Hn' & _). simpl in *. rewrite Hn' in Hpart.
  split; [done|]. rewrite length_map.
  case_decide as Hmany.
  - right. split; [done|].
    destruct (merge_components_spec self
                (map list_of_set (nx.connected_components G')))
      as (c1 & c2 & Hcl & Hperm & Hmerge & Hexp).
    + apply Forall_forall. intros component Hc. apply Forall_forall.
      intros i Hi. unfold valid_rows in Hvalid. rewrite Forall_forall in Hvalid.
      apply Hvalid. rewrite <-Hpart. apply list_elem_of_In, in_concat.
      exists component. split; by apply list_elem_of_In.
    + rewrite length_map. lia.
    + rewrite length_map in Hperm. exists c1, c2. done.
  - left. split; [lia|done].
Qed.

(** Removing edges keeps the nodes and adds no edge. *)
Lemma remove_edges_shrinks es G G' :
  remove_edges es G = Ok G' →
  nx.nodes G' = nx.nodes G ∧ nx.edges G' ⊆ nx.edges G.
Proof.
  unfold remove_edges. revert G.
  induction es as [|[i j] es IH]; intros G; simpl.
  { by intros [= <-]. }
  unfold nx.remove_edge. destruct (nx.has_edge G i j); simpl; [|done].
  intros [Hn HE]%IH. simpl in *. split; [done|]. set_solver.
Qed.

Lemma percolate_shrinks m pops G G' rest :
  percolate m pops G = Ok (G', rest) →
  nx.nodes G' = nx.nodes G ∧ nx.edges G' ⊆ nx.edges G.
Proof.
  revert G. induction pops as [|w pops IH]; intros G; simpl.
  - case_decide; [done|]. by intros [= <- <-].
  - case_decide; [|by intros [= <- <-]].
    destruct (remove_edges (bucket m w) G) as [G1|] eqn:Hrm; simpl; [|done].
    apply remove_edges_shrinks in Hrm as [Hn1 HE1].
    intros [Hn HE]%IH. split; [congruence|set_solver].
Qed.

Lemma well_formed_shrinks G G' :
  well_formed G → nx.nodes G' = nx.nodes G → nx.edges G' ⊆ nx.edges G →
  well_formed G'.
Proof.
  intros [Hnd HE] Hn Hsub. split; [by rewrite Hn|].
  intros u v Huv. rewrite Hn. apply HE. set_solver.
Qed.

Lemma similarity_graph_well_formed self samples G m :
  valid_rows self samples →
  similarity_graph self samples = Ok (G, m) →
  well_formed G ∧ ∀ x, x ∈ nx.nodes G ↔ x ∈ samples.
Proof.
  intros Hvalid Hbuild.
  destruct (similarity_graph_spec self samples Hvalid)
    as (G0 & m0 & Hbuild0 & HE & _ & _ & _ & Hnd & Hin).
  rewrite Hbuild in Hbuild0. injection Hbuild0 as <- <-.
  split; [|done]. split; [done|].
  intros u v. rewrite HE, elem_of_list_to_set, !Hin. unfold similar_pairs.
  intros [_ Huv]%list_elem_of_filter. by apply elem_of_combinations2.
Qed.

(** ** The configuration is read through its values only *)

Lemma for_each_ext {A S} (f g : S → A → result S) l s :
  (∀ s x, f s x = g s x) → for_each f l s = for_each g l s.
Proof.
  intros Hfg. revert s. induction l as [|x l IH]; intros s; simpl; [done|].
  rewrite Hfg. destruct (g s x); simpl; [apply IH|done].
Qed.

Lemma comprehension_ext {A B} (f g : A → result B) l :
  (∀ x, f x = g x) → comprehension f l = comprehension g l.
Proof.
  intros Hfg. induction l as [|x l IH]; simpl; [done|]. by rewrite Hfg, IH.
Qed.

Lemma argmin_ext {A} (f g : A → Q) l :
  (∀ x, f x = g x) → NeighborJoining.argmin f l = NeighborJoining.argmin g l.
Proof.
  intros Hfg. induction l as [|x l IH]; simpl; [done|].
  rewrite IH. destruct (NeighborJoining.argmin g l); [|done].
  by rewrite !Hfg.
Qed.

Lemma corrected_ext st1 st2 i j :
  same_state st1 st2 →
  NeighborJoining.corrected st1 i j = NeighborJoining.corrected st2 i j.
Proof.
  intros (Ha & _ & Hd).
  assert (∀ k, NeighborJoining.total_dist st1 k = NeighborJoining.total_dist st2 k)
    as Ht.
  { intros k. unfold NeighborJoining.total_dist. rewrite Ha. f_equal.
    apply map_ext. intros a. apply Hd. }
  unfold NeighborJoining.corrected. by rewrite Ha, Hd, !Ht.
Qed.

Lemma join_ext st1 st2 :
  same_state st1 st2 →
  same_state (NeighborJoining.join st1) (NeighborJoining.join st2).
Proof.
  intros Hst. pose proof Hst as (Ha & Hf & Hd). unfold NeighborJoining.join.
  rewrite (argmin_ext _ (λ c, NeighborJoining.corrected st2 c.1.1.1 c.1.2.1))
    by (intros c; by apply corrected_ext).
  rewrite Ha.
  destruct (NeighborJoining.argmin _ _) as [[[[i ti] [j tj]] others]|]; [|done].
  split; [simpl; by rewrite Hf|]. split; [simpl; by rewrite Hf|].
  intros a b. simpl. rewrite Hf, !Hd. done.
Qed.

Lemma joins_ext n st1 st2 :
  same_state st1 st2 →
  same_state (NeighborJoining.joins n st1) (NeighborJoining.joins n st2).
Proof.
  revert st1 st2. induction n as [|n IH]; intros st1 st2 Hst; simpl; [done|].
  by apply IH, join_ext.
Qed.

Lemma solve_ext character_matrix (d1 d2 : list Z → list Z → Q) :
  (∀ s1 s2, d1 s1 s2 = d2 s1 s2) →
  NeighborJoining.solve character_matrix d1 = NeighborJoining.solve character_matrix d2.
Proof.
  intros Hd. unfold NeighborJoining.solve.
  destruct (joins_ext (length character_matrix - 2)
    (NeighborJoining.mkState
       (map (λ i, (i, Leaf i)) (seq 0 (length character_matrix)))
       (λ i j, d1 (default [] (character_matrix !! i))
                  (default [] (character_matrix !! j)))
       (length character_matrix))
    (NeighborJoining.mkState
       (map (λ i, (i, Leaf i)) (seq 0 (length character_matrix)))
       (λ i j, d2 (default [] (character_matrix !! i))
                  (default [] (character_matrix !! j)))
       (length character_matrix))) as (Ha & _).
  { split; [done|]. split; [done|]. intros i j. simpl. apply Hd. }
  by rewrite Ha.
Qed.

(** Two solvers with the same character matrix, missing marker and threshold
    whose similarity functions return the same scores split alike. *)
Lemma perform_split_ext self1 self2 samples :
  unique_character_matrix self1 = unique_character_matrix self2 →
  missing_char self1 = missing_char self2 →
  threshold self1 = threshold self2 →
  (∀ s1 s2,
     similarity_function self1 s1 s2 (missing_char self1) (weights self1)
     = similarity_function self2 s1 s2 (missing_char self2) (weights self2)) →
  perform_split self1 samples = perform_split self2 samples.
Proof.
  intros HM Hmc Hthr Hsim.
  assert (∀ i, row self1 i = row self2 i) as Hrow.
  { intros i. unfold row. by rewrite HM. }
  assert (∀ st e, add_pair self1 st e = add_pair self2 st e) as Hadd.
  { intros [G m] [i j]. unfold add_pair, similarity. rewrite !Hrow.
    destruct (row self2 i) as [ri|]; simpl; [|done].
    destruct (row self2 j) as [rj|]; simpl; [|done].
    by rewrite Hsim, Hthr. }
  assert (∀ lcas, clusters_of self1 lcas = clusters_of self2 lcas) as Hcl.
  { intros lcas. unfold clusters_of. f_equal. f_equal. f_equal.
    apply solve_ext. intros s1 s2. unfold negative_similarity.
    by rewrite Hsim. }
  assert (∀ cs, merge_components self1 cs = merge_components self2 cs) as Hmerge.
  { intros cs. unfold merge_components.
    rewrite (comprehension_ext _
      (λ component,
         character_vectors ← comprehension (row self2) component ;
         Ok (get_lca_characters character_vectors (missing_char self2)))).
    - destruct (comprehension _ cs); simpl; [|done]. by rewrite Hcl.
    - intros component. rewrite (comprehension_ext _ (row self2)) by done.
      by rewrite Hmc. }
  unfold perform_split, similarity_graph.
  rewrite (for_each_ext _ (add_pair self2)) by done.
  destruct (for_each _ _ _) as [[G m]|]; simpl; [|done].
  destruct (nx.no_edges G); [done|].
  destruct (percolate _ _ _) as [[G' rest]|]; simpl; [|done].
  case_decide; [apply Hmerge|done].
Qed.

(** ** The groups are made of whole components *)

Lemma components_from_sources G vs seen c :
  c ∈ nx.components_from G vs seen →
  ∃ v, v ∈ vs ∧ c = nx.component_of G v.
Proof.
  revert seen. induction vs as [|v vs IH]; intros seen; simpl.
  { by intros ?%elem_of_nil. }
  case_decide.
  - intros (u & Hu & ->)%IH. exists u. split; [by right|done].
  - intros [->|(u & Hu & ->)%IH]%elem_of_cons.
    + exists v. split; [by left|done].
    + exists u. split; [by right|done].
Qed.

Lemma connected_components_closed G c :
  well_formed G → c ∈ nx.connected_components G → closed G c.
Proof.
  intros Hwf (v & Hv & ->)%components_from_sources.
  by apply component_of_closed.
Qed.

Lemma adjacent_rtc_sym G x y :
  rtc (adjacent G) x y → rtc (adjacent G) y x.
Proof.
  induction 1 as [|x z y Hxz _ IH]; [done|].
  eapply rtc_r; [exact IH|]. by apply adjacent_sym.
Qed.

(** The members of a component are linked by chains of edges. *)
Lemma connected_components_connected G c x y :
  c ∈ nx.connected_components G → x ∈ c → y ∈ c → rtc (adjacent G) x y.
Proof.
  intros (v & Hv & ->)%components_from_sources Hx Hy.
  assert (∀ z, z ∈ nx.component_of G v → rtc (adjacent G) v z) as Hreach.
  { apply component_of_invariant; [|done].
    intros a b Ha Hab. by eapply rtc_r. }
  etrans; [apply adjacent_rtc_sym, Hreach, Hx | apply Hreach, Hy].
Qed.

Lemma connected_components_inhabited G c :
  c ∈ nx.connected_components G → list_of_set c ≠ [].
Proof.
  intros (v & Hv & ->)%components_from_sources Hnil.
  pose proof (component_of_source G v) as Hsrc.
  apply elem_of_list_of_set in Hsrc. rewrite Hnil in Hsrc.
  by apply elem_of_nil in Hsrc.
Qed.

Lemma union_of_components_closed G group x y :
  well_formed G → union_of_components G group →
  x ∈ group → adjacent G x y → y ∈ group.
Proof.
  intros Hwf Hgroup Hx Hxy. destruct (Hgroup x Hx) as (c & Hc & Hxc & Hsub).
  apply Hsub. by apply (connected_components_closed G c Hwf Hc x y).
Qed.

Lemma union_of_components_expand G cluster :
  (∀ a, a ∈ cluster → a < length (nx.connected_components G)) →
  union_of_components G
    (expand (map list_of_set (nx.connected_components G)) cluster).
Proof.
  intros Hlt x Hx. unfold expand in *.
  apply list_elem_of_In, in_concat in Hx as (g & Hg & Hxg).
  apply list_elem_of_In, list_elem_of_fmap in Hg as (a & -> & Ha).
  apply list_elem_of_In in Hxg.
  destruct (lookup_lt_is_Some_2 _ _ (Hlt a Ha)) as [c Hc].
  rewrite list_lookup_fmap, Hc in Hxg. simpl in Hxg.
  exists c. split; [by eapply list_elem_of_lookup_2|].
  split; [by apply elem_of_list_of_set|].
  intros y Hy. apply list_elem_of_In, in_concat.
  exists (list_of_set c). split.
  - apply list_elem_of_In, list_elem_of_fmap. exists a. split; [|done].
    by rewrite list_lookup_fmap, Hc.
  - by apply list_elem_of_In, elem_of_list_of_set.
Qed.

Lemma expand_inhabited G cluster :
  cluster ≠ [] →
  (∀ a, a ∈ cluster → a < length (nx.connected_components G)) →
  expand (map list_of_set (nx.connected_components G)) cluster ≠ [].
Proof.
  destruct cluster as [|a cluster]; [done|]. intros _ Hlt.
  destruct (lookup_lt_is_Some_2 _ _ (Hlt a ltac:(by left))) as [c Hc].
  unfold expand. simpl. rewrite list_lookup_fmap, Hc. simpl.
  pose proof (connected_components_inhabited G c
                ltac:(by eapply list_elem_of_lookup_2)) as Hne.
  destruct (list_of_set c); [done|]. done.
Qed.

(** ** The joined tree has no empty subtree *)

Lemma join_inhabited st :
  2 ≤ length (NeighborJoining.active st) →
  Forall (λ a, get_leaves a.2 ≠ []) (NeighborJoining.active st) →
  Forall (λ a, get_leaves a.2 ≠ [])
         (NeighborJoining.active (NeighborJoining.join st)).
Proof.
  intros Hlen Hall. unfold NeighborJoining.join.
  destruct (argmin_is_Some
              (λ c, NeighborJoining.corrected st c.1.1.1 c.1.2.1)
              (NeighborJoining.pairs (NeighborJoining.active st))
              (pairs_nonempty _ Hlen)) as [[[[i ti] [j tj]] others] Hmin].
  rewrite Hmin. apply argmin_elem_of, pairs_perm in Hmin.
  rewrite <-Hmin in Hall.
  apply Forall_cons in Hall as [Hi Hall]. apply Forall_cons in Hall as [Hj Hall].
  simpl in *. apply Forall_app. split; [done|].
  constructor; [|constructor]. simpl. by destruct (get_leaves ti).
Qed.

Lemma joins_inhabited n st :
  n + 2 ≤ length (NeighborJoining.active st) →
  Forall (λ a, get_leaves a.2 ≠ []) (NeighborJoining.active st) →
  Forall (λ a, get_leaves a.2 ≠ [])
         (NeighborJoining.active (NeighborJoining.joins n st)).
Proof.
  revert st. induction n as [|n IH]; intros st Hlen Hall; simpl; [done|].
  destruct (join_spec st) as [Hl _]; [lia|].
  apply IH; [lia|]. apply join_inhabited; [lia|done].
Qed.

Lemma clusters_of_inhabited self lcas c1 c2 :
  2 ≤ length lcas → clusters_of self lcas = [c1; c2] → c1 ≠ [] ∧ c2 ≠ [].
Proof.
  intros Hlen. unfold clusters_of, NeighborJoining.solve.
  set (st0 := NeighborJoining.mkState _ _ _).
  assert (length (NeighborJoining.active st0) = length lcas) as Hl0.
  { unfold st0. simpl. by rewrite length_map, length_seq. }
  assert (Forall (λ a, get_leaves a.2 ≠ []) (NeighborJoining.active st0)) as H0.
  { unfold st0. simpl. apply Forall_forall.
    by intros a (i & -> & _)%list_elem_of_fmap. }
  pose proof (joins_inhabited (length lcas - 2) st0 ltac:(lia) H0) as Hall.
  revert Hall.
  generalize (NeighborJoining.active (NeighborJoining.joins (length lcas - 2) st0)).
  intros [|[i a] [|[j b] [|? ?]]] Hall; simpl; try done.
  rewrite !splice_unifurcations_leaves. intros [= <- <-].
  apply Forall_cons in Hall as [Ha Hall]. apply Forall_cons in Hall as [Hb _].
  done.
Qed.

(** * The properties of the specification *)

(** A decidable closed proposition, settled by evaluation. *)
Ltac by_evaluation := apply (bool_decide_unpack _); vm_compute; exact I.

(** The samples at hand are rows of the matrix at hand. *)
Ltac rows_in_range := unfold valid_rows; simpl; repeat constructor; lia.

(** Against C1 on arbitrary lists: a list that names a sample twice makes
    the percolation remove an edge twice, and [perform_split] raises instead
    of returning two groups. *)
Lemma C1_repeated_sample_raises :
  perform_split four_samples [0; 1; 0] = Raise NetworkXError.
Proof. vm_compute. reflexivity. Qed.

(** C1, on duplicate-free lists: for every duplicate-free list of rows of the character
    matrix, [perform_split] returns exactly two groups; they are disjoint and
    together they are the input samples, each once. *)
Theorem C1_partition self samples :
  NoDup samples → valid_rows self samples →
  ∃ left right,
    perform_split self samples = Ok [left; right] ∧
    left ++ right ≡ₚ samples ∧
    NoDup (left ++ right) ∧
    (∀ x, x ∈ left → x ∉ right).
Proof.
  intros Hnd Hvalid.
  assert (∃ left right, perform_split self samples = Ok [left; right]
                        ∧ left ++ right ≡ₚ samples) as (l & r & Hrun & Hperm).
  { destruct (perform_split_spec self samples Hnd Hvalid)
      as (G & m & _ & _ & _ & [[_ Hrun]|(_ & G' & rest & _ & _ & _ & Hpart & Hcase)]).
    - exists samples, []. split; [done|]. by rewrite app_nil_r.
    - destruct Hcase as [[Hlen Hrun]|(_ & c1 & c2 & _ & _ & Hrun & Hexp)].
      + revert Hlen Hpart Hrun.
        generalize (nx.connected_components G').
        intros [|a [|b [|? ?]]] Hlen Hpart Hrun; simpl in Hlen; try lia.
        exists (list_of_set a), (list_of_set b). split; [done|].
        simpl in Hpart. by rewrite app_nil_r in Hpart.
      + eexists _, _. split; [exact Hrun|]. by rewrite Hexp. }
  exists l, r. split; [done|]. split; [done|].
  assert (NoDup (l ++ r)) as Hnd' by (by rewrite Hperm).
  split; [done|]. apply NoDup_app in Hnd' as (_ & Hd & _). exact Hd.
Qed.

Lemma C1_partition_witness :
  ∃ left right,
    perform_split four_samples [0; 1; 2; 3] = Ok [left; right] ∧
    left ++ right ≡ₚ [0; 1; 2; 3] ∧
    NoDup (left ++ right) ∧
    (∀ x, x ∈ left → x ∉ right).
Proof.
  apply (C1_partition four_samples [0; 1; 2; 3]).
  - by_evaluation.
  - rows_in_range.
Defined.

(** Against C2: under threshold 0 the pair of samples 0 and 2,
    which share no mutation and score 0, is an edge; the graph is one
    connected component and the loop runs a round. *)
Lemma C2_cross_pairs_are_edges :
  ∃ G m G' rest,
    similarity_graph four_samples [0; 1; 2; 3] = Ok (G, m) ∧
    edge_weight four_samples (0, 2) = 0%Z ∧
    (0, 2) ∈ nx.edges G ∧
    length (nx.connected_components G) = 1 ∧
    percolate m (reverse (sorted_reverse m)) G = Ok (G', rest) ∧
    length (reverse (sorted_reverse m)) - length rest = 1.
Proof.
  eexists _, _, _, _.
  split; [reflexivity|]. split; [reflexivity|].
  split; [by_evaluation|].
  split; [vm_compute; reflexivity|].
  split; [vm_compute; reflexivity|]. vm_compute. reflexivity.
Qed.

(** C2, with the cross pairs as edges: for the four samples, hamming similarity and threshold 0, the
    similarity graph has all six pairs as edges (the two pairs that share a
    mutation at score 1, the four others at score 0) and is one connected
    component; the percolation loop runs exactly one round, which removes
    the four edges of score 0; [perform_split] returns the partition
    ({0,1}, {2,3}). *)
Theorem C2_four_samples :
  ∃ G m G',
    similarity_graph four_samples [0; 1; 2; 3] = Ok (G, m) ∧
    nx.edges G = list_to_set [(0, 1); (0, 2); (0, 3); (1, 2); (1, 3); (2, 3)] ∧
    bucket m 1%Z = [(0, 1); (2, 3)] ∧
    bucket m 0%Z = [(0, 2); (0, 3); (1, 2); (1, 3)] ∧
    reverse (sorted_reverse m) = [0%Z; 1%Z] ∧
    length (nx.connected_components G) = 1 ∧
    percolation_step m (G, [0%Z; 1%Z]) (G', [1%Z]) ∧
    nx.edges G' = list_to_set [(0, 1); (2, 3)] ∧
    percolate m (reverse (sorted_reverse m)) G = Ok (G', [1%Z]) ∧
    map list_of_set (nx.connected_components G') = [[0; 1]; [2; 3]] ∧
    perform_split four_samples [0; 1; 2; 3] = Ok [[0; 1]; [2; 3]].
Proof.
  eexists _, _, _.
  split; [reflexivity|].
  split; [vm_compute; reflexivity|].
  split; [vm_compute; reflexivity|].
  split; [vm_compute; reflexivity|].
  split; [vm_compute; reflexivity|].
  split; [vm_compute; reflexivity|].
  split; [split; [vm_compute; lia | reflexivity]|].
  split; [vm_compute; reflexivity|].
  split; [vm_compute; reflexivity|].
  split; [vm_compute; reflexivity|].
  vm_compute. reflexivity.
Qed.

(** C3: whenever the percolation leaves more than two connected components,
    the neighbor-joining merge (ancestral vector per component, neighbor
    joining under negative similarity, unifurcations collapsed, the child
    subtrees of the root read off) yields exactly two clusters of
    components, neither of them empty, which share out the components, and
    the partition returned is the pair of the member samples of the
    components of each cluster, two groups that both hold a sample. *)
Theorem C3_merge_yields_two_clusters self samples G m G' rest :
  valid_rows self samples →
  similarity_graph self samples = Ok (G, m) →
  nx.no_edges G = false →
  percolate m (reverse (sorted_reverse m)) G = Ok (G', rest) →
  2 < length (nx.connected_components G') →
  ∃ c1 c2,
    clusters_of self (lca_matrix self (map list_of_set (nx.connected_components G')))
      = [c1; c2] ∧
    c1 ≠ [] ∧ c2 ≠ [] ∧
    c1 ++ c2 ≡ₚ seq 0 (length (nx.connected_components G')) ∧
    perform_split self samples
      = Ok [expand (map list_of_set (nx.connected_components G')) c1;
            expand (map list_of_set (nx.connected_components G')) c2] ∧
    expand (map list_of_set (nx.connected_components G')) c1 ≠ [] ∧
    expand (map list_of_set (nx.connected_components G')) c2 ≠ [].
Proof.
  intros Hvalid Hbuild Hedges Hrun Hmany.
  destruct (similarity_graph_well_formed self samples G m Hvalid Hbuild)
    as [Hwf Hin].
  destruct (percolate_shrinks _ _ _ _ _ Hrun) as [Hn HE].
  pose proof (well_formed_shrinks G G' Hwf Hn HE) as Hwf'.
  pose proof (connected_components_partition G' Hwf') as Hpart.
  destruct (merge_components_spec self
              (map list_of_set (nx.connected_components G')))
    as (c1 & c2 & Hcl & Hperm & Hmerge & _).
  { apply Forall_forall. intros component Hc. apply Forall_forall.
    intros i Hi. unfold valid_rows in Hvalid. rewrite Forall_forall in Hvalid.
    apply Hvalid, Hin. rewrite <-Hn, <-Hpart.
    apply list_elem_of_In, in_concat.
    exists component. split; by apply list_elem_of_In. }
  { rewrite length_map. lia. }
  rewrite length_map in Hperm.
  assert (2 ≤ length (lca_matrix self
                        (map list_of_set (nx.connected_components G')))) as Hl.
  { unfold lca_matrix. rewrite !length_map. lia. }
  destruct (clusters_of_inhabited self _ c1 c2 Hl Hcl) as [Hne1 Hne2].
  assert (∀ a, a ∈ c1 ++ c2 → a < length (nx.connected_components G')) as Hlt.
  { intros a. rewrite Hperm, list_elem_of_In, in_seq. lia. }
  exists c1, c2. split; [done|]. split; [done|]. split; [done|].
  split; [done|]. split.
  { unfold perform_split. rewrite Hbuild. simpl. rewrite Hedges, Hrun. simpl.
    rewrite length_map. by rewrite decide_True. }
  split; (apply expand_inhabited; [done|]); intros a Ha; apply Hlt, elem_of_app;
    [by left|by right].
Qed.

Lemma C3_merge_yields_two_clusters_witness :
  ∃ G m G' rest,
    similarity_graph three_samples [0; 1; 2] = Ok (G, m) ∧
    percolate m (reverse (sorted_reverse m)) G = Ok (G', rest) ∧
    length (nx.connected_components G') = 3 ∧
    ∃ c1 c2,
      clusters_of three_samples
        (lca_matrix three_samples (map list_of_set (nx.connected_components G')))
        = [c1; c2] ∧
      c1 ≠ [] ∧ c2 ≠ [] ∧
      c1 ++ c2 ≡ₚ seq 0 (length (nx.connected_components G')) ∧
      perform_split three_samples [0; 1; 2]
        = Ok [expand (map list_of_set (nx.connected_components G')) c1;
              expand (map list_of_set (nx.connected_components G')) c2] ∧
      expand (map list_of_set (nx.connected_components G')) c1 ≠ [] ∧
      expand (map list_of_set (nx.connected_components G')) c2 ≠ [].
Proof.
  eexists _, _, _, _.
  split; [reflexivity|]. split; [reflexivity|].
  split; [vm_compute; reflexivity|].
  eapply (C3_merge_yields_two_clusters three_samples [0; 1; 2]).
  - rows_in_range.
  - reflexivity.
  - vm_compute. reflexivity.
  - reflexivity.
  - vm_compute. lia.
Defined.

(** Against C4 on arbitrary lists: on a list that names a sample twice the
    similarity graph is a single connected component, and the round on the
    least weight present meets a pair whose edge the round has already
    removed: it raises instead of removing the edges of that weight. *)
Lemma C4_round_raises_on_repeated_sample :
  ∃ G m w pops,
    similarity_graph four_samples [0; 1; 0] = Ok (G, m) ∧
    nx.edges G ≠ ∅ ∧
    length (nx.connected_components G) = 1 ∧
    reverse (sorted_reverse m) = w :: pops ∧
    least_weight four_samples G w ∧
    bucket m w = [(0, 1); (0, 0); (1, 0)] ∧
    percolation_round m (G, w :: pops) = Raise NetworkXError ∧
    percolate m (reverse (sorted_reverse m)) G = Raise NetworkXError.
Proof.
  eexists _, _, _, _.
  split; [reflexivity|].
  split; [by_evaluation|].
  split; [vm_compute; reflexivity|].
  split; [vm_compute; reflexivity|].
  split.
  { split.
    - exists (0, 1). split; [by_evaluation|reflexivity].
    - apply (bool_decide_unpack _). vm_compute. exact I. }
  split; [vm_compute; reflexivity|].
  split; vm_compute; reflexivity.
Qed.

(** C4, on duplicate-free lists: on the similarity graph of a duplicate-free
    list of rows of the character matrix, as long as the graph has
    a single connected component a round of the percolation loop pops the
    least weight still present among the edges and removes every edge of
    that weight and no other; no round adds an edge; and the rounds go on
    until the graph has at least two components, where the loop ends. *)
Theorem C4_percolation_rounds self samples G m :
  NoDup samples → valid_rows self samples →
  similarity_graph self samples = Ok (G, m) →
  nx.edges G ≠ ∅ →
  (∀ G1 pops1,
     rtc (percolation_step m) (G, reverse (sorted_reverse m)) (G1, pops1) →
     length (nx.connected_components G1) ≤ 1 →
     ∃ w pops2 G2,
       pops1 = w :: pops2 ∧
       least_weight self G1 w ∧
       percolation_round m (G1, pops1) = Ok (G2, pops2) ∧
       (∀ e, e ∈ nx.edges G2 ↔ e ∈ nx.edges G1 ∧ edge_weight self e ≠ w)) ∧
  (∃ G' rest,
     percolate m (reverse (sorted_reverse m)) G = Ok (G', rest) ∧
     rtc (percolation_step m) (G, reverse (sorted_reverse m)) (G', rest) ∧
     nx.edges G' ⊆ nx.edges G ∧
     2 ≤ length (nx.connected_components G')).
Proof.
  intros Hnd Hvalid Hbuild Hedges.
  destruct (perform_split_spec self samples Hnd Hvalid)
    as (G0 & m0 & Hbuild0 & HP & Hb & Hcase).
  rewrite Hbuild in Hbuild0. injection Hbuild0 as <- <-.
  destruct Hcase as [[? _]|(_ & G' & rest & Hrun & Hrtc & Hcc & Hpart & _)];
    [done|].
  pose proof (percolating_two_samples self samples _ Hnd HP Hedges) as Hlen.
  split.
  - intros G1 pops1 Hreach Hone.
    pose proof (percolation_steps_percolating self samples m _ _ Hnd Hb HP Hreach)
      as HP1.
    destruct pops1 as [|w pops2].
    + exfalso. destruct HP1 as (Hn1 & _ & _ & HE1). simpl in *.
      rewrite connected_components_no_edges in Hone.
      * rewrite Hn1 in Hone. lia.
      * rewrite HE1. apply set_eq. intros e.
        rewrite elem_of_list_to_set, list_elem_of_filter.
        split; [intros [?%elem_of_nil _]; done | set_solver].
      * by rewrite Hn1.
    + destruct (percolation_round_spec self samples m G1 w pops2 Hnd Hb HP1)
        as (G2 & Hrm & _ & Hleast & Hrem).
      exists w, pops2, G2. split; [done|]. split; [done|]. split; [|done].
      unfold percolation_round. simpl. by rewrite Hrm.
  - exists G', rest. split; [done|]. split; [done|]. split; [|done].
    by apply percolate_shrinks in Hrun as [_ ?].
Qed.

Lemma C4_percolation_rounds_witness :
  ∃ G m,
    similarity_graph four_samples [0; 1; 2; 3] = Ok (G, m) ∧
    (∀ G1 pops1,
       rtc (percolation_step m) (G, reverse (sorted_reverse m)) (G1, pops1) →
       length (nx.connected_components G1) ≤ 1 →
       ∃ w pops2 G2,
         pops1 = w :: pops2 ∧
         least_weight four_samples G1 w ∧
         percolation_round m (G1, pops1) = Ok (G2, pops2) ∧
         (∀ e, e ∈ nx.edges G2 ↔ e ∈ nx.edges G1 ∧ edge_weight four_samples e ≠ w)) ∧
    (∃ G' rest,
       percolate m (reverse (sorted_reverse m)) G = Ok (G', rest) ∧
       rtc (percolation_step m) (G, reverse (sorted_reverse m)) (G', rest) ∧
       nx.edges G' ⊆ nx.edges G ∧
       2 ≤ length (nx.connected_components G')).
Proof.
  eexists _, _. split; [reflexivity|].
  apply (C4_percolation_rounds four_samples [0; 1; 2; 3]).
  - by_evaluation.
  - rows_in_range.
  - reflexivity.
  - by_evaluation.
Defined.

(** C5: if every pair of samples scores below the threshold, the similarity
    graph has no edge and [perform_split] returns [(samples, [])], the whole
    input on the left and nothing on the right, and does not raise. *)
Theorem C5_no_edges_returns_samples self samples :
  valid_rows self samples →
  Forall (λ e, (edge_weight self e < threshold self)%Z) (combinations2 samples) →
  ∃ G m,
    similarity_graph self samples = Ok (G, m) ∧
    nx.edges G = ∅ ∧
    perform_split self samples = Ok [samples; []].
Proof.
  intros Hvalid Hbelow.
  destruct (similarity_graph_spec self samples Hvalid)
    as (G & m & Hbuild & HE & _).
  assert (nx.edges G = ∅) as Hnone.
  { rewrite HE. apply set_eq. intros e. unfold similar_pairs.
    rewrite elem_of_list_to_set, list_elem_of_filter.
    rewrite Forall_forall in Hbelow.
    split; [|set_solver]. intros [Hge Hin]. specialize (Hbelow e Hin). lia. }
  exists G, m. split; [done|]. split; [done|].
  unfold perform_split. rewrite Hbuild. simpl.
  unfold nx.no_edges. by rewrite bool_decide_eq_true_2.
Qed.

Lemma C5_no_edges_returns_samples_witness :
  ∃ G m,
    similarity_graph four_samples_apart [0; 1; 2; 3] = Ok (G, m) ∧
    nx.edges G = ∅ ∧
    perform_split four_samples_apart [0; 1; 2; 3] = Ok [[0; 1; 2; 3]; []].
Proof.
  apply (C5_no_edges_returns_samples four_samples_apart [0; 1; 2; 3]).
  - rows_in_range.
  - by_evaluation.
Defined.

(** Against C6 on arbitrary lists: on a list that names one sample twice the graph has
    a single node with a loop edge; after the round that removes it the
    graph still has one component and the loop pops the exhausted list. *)
Lemma C6_pop_on_exhausted_list :
  ∃ G m,
    similarity_graph four_samples [0; 0] = Ok (G, m) ∧
    nx.no_edges G = false ∧
    percolate m (reverse (sorted_reverse m)) G = Raise IndexError ∧
    perform_split four_samples [0; 0] = Raise IndexError.
Proof.
  eexists _, _. split; [reflexivity|].
  split; [vm_compute; reflexivity|].
  split; vm_compute; reflexivity.
Qed.

(** C6, on duplicate-free lists: for every duplicate-free list of rows of the character
    matrix and every similarity function, the percolation loop exits with at
    least two components and never pops an exhausted list, and
    [perform_split] returns. *)
Theorem C6_terminates self samples :
  NoDup samples → valid_rows self samples →
  (∃ G m,
     similarity_graph self samples = Ok (G, m) ∧
     (nx.edges G ≠ ∅ →
      ∃ G' rest,
        percolate m (reverse (sorted_reverse m)) G = Ok (G', rest) ∧
        2 ≤ length (nx.connected_components G'))) ∧
  ∃ groups, perform_split self samples = Ok groups.
Proof.
  intros Hnd Hvalid.
  destruct (perform_split_spec self samples Hnd Hvalid)
    as (G & m & Hbuild & _ & _ & Hcase).
  destruct Hcase as [[Hnone Hrun]|(_ & G' & rest & Hrun & _ & Hcc & _ & Hcase)].
  - split; [|by eexists]. exists G, m. split; [done|]. by intros [].
  - split.
    + exists G, m. split; [done|]. intros _. by exists G', rest.
    + destruct Hcase as [[_ Hsplit]|(_ & c1 & c2 & _ & _ & Hsplit & _)];
        by eexists.
Qed.

Lemma C6_terminates_witness :
  (∃ G m,
     similarity_graph three_samples [0; 1; 2] = Ok (G, m) ∧
     (nx.edges G ≠ ∅ →
      ∃ G' rest,
        percolate m (reverse (sorted_reverse m)) G = Ok (G', rest) ∧
        2 ≤ length (nx.connected_components G'))) ∧
  ∃ groups, perform_split three_samples [0; 1; 2] = Ok groups.
Proof.
  apply (C6_terminates three_samples [0; 1; 2]).
  - by_evaluation.
  - rows_in_range.
Defined.

(** C7: [VanillaGreedySolver.solve] is a stub: on every solver, and so on a
    one-sample character matrix, it returns [None] and builds no tree. *)
Theorem C7_solve_returns_none (Classifier : Type)
    (self : VanillaGreedySolver.t Classifier) :
  VanillaGreedySolver.solve Classifier self = None.
Proof. reflexivity. Qed.

(** C8: [VanillaGreedySolver.perform_split] is a stub: for every list of
    samples and every split pair it returns [None], not a partition, and the
    missing-data classifier is never consulted. *)
Theorem C8_perform_split_returns_none (Classifier : Type)
    (self : VanillaGreedySolver.t Classifier)
    (samples : list nat) (split : nat * Z) :
  VanillaGreedySolver.perform_split Classifier self samples split = None.
Proof. reflexivity. Qed.

(** C10: on the empty list of samples [perform_split] does not raise: there
    is no pair, the graph has no edge, and it returns [([], [])]. *)
Theorem C10_empty_samples self :
  (∃ G m, similarity_graph self [] = Ok (G, m) ∧ nx.edges G = ∅) ∧
  perform_split self [] = Ok [[]; []].
Proof.
  split; [by eexists _, _|]. reflexivity.
Qed.

(** C9: two runs of [perform_split] on the same list of samples under the
    same configuration (character matrix, missing marker, threshold, and a
    similarity function and weights that give the same scores) end alike:
    with the same partition, or with the same exception. *)
Theorem C9_deterministic self1 self2 samples1 samples2 :
  samples1 = samples2 →
  unique_character_matrix self1 = unique_character_matrix self2 →
  missing_char self1 = missing_char self2 →
  threshold self1 = threshold self2 →
  (∀ s1 s2,
     similarity_function self1 s1 s2 (missing_char self1) (weights self1)
     = similarity_function self2 s1 s2 (missing_char self2) (weights self2)) →
  perform_split self1 samples1 = perform_split self2 samples2.
Proof.
  intros -> HM Hmc Hthr Hsim. by apply perform_split_ext.
Qed.

Lemma C9_deterministic_witness :
  perform_split four_samples [0; 1; 2; 3]
  = perform_split
      {| unique_character_matrix := [[1; 0]; [1; 0]; [0; 1]; [0; 1]]%Z;
         missing_char := (-1)%Z;
         weights := None;
         similarity_function :=
           λ s1 s2 missing w, (hamming_similarity s1 s2 missing w + 0)%Z;
         threshold := 0%Z |}
      [0; 1; 2; 3].
Proof.
  apply C9_deterministic.
  - reflexivity.
  - reflexivity.
  - reflexivity.
  - reflexivity.
  - intros s1 s2. simpl. lia.
Defined.

(** * Further properties of the percolation split *)

(** ** Rows that are not in the matrix *)

Lemma add_pair_valid self st e :
  e.1 < length (unique_character_matrix self) →
  e.2 < length (unique_character_matrix self) →
  ∃ st', add_pair self st e = Ok st'.
Proof.
  destruct st as [G m], e as [i j]. simpl. intros Hi Hj.
  rewrite similarity_valid by done. simpl. case_bool_decide; by eexists.
Qed.

Lemma add_pair_invalid self st e :
  ¬ (e.1 < length (unique_character_matrix self)
     ∧ e.2 < length (unique_character_matrix self)) →
  add_pair self st e = Raise IndexError.
Proof.
  destruct st as [G m], e as [i j]. simpl. intros Hij.
  unfold similarity, row.
  destruct (unique_character_matrix self !! i) as [ri|] eqn:Hi; simpl; [|done].
  destruct (unique_character_matrix self !! j) as [rj|] eqn:Hj; simpl; [|done].
  destruct Hij. split; by eapply lookup_lt_Some.
Qed.

Lemma add_pairs_invalid self ps st :
  Exists (λ e : nat * nat,
            ¬ (e.1 < length (unique_character_matrix self)
               ∧ e.2 < length (unique_character_matrix self))) ps →
  for_each (add_pair self) ps st = Raise IndexError.
Proof.
  revert st. induction ps as [|e ps IH]; intros st Hex; [by inversion Hex|].
  simpl.
  destruct (decide (e.1 < length (unique_character_matrix self)
                    ∧ e.2 < length (unique_character_matrix self)))
    as [[H1 H2]|Hbad].
  - destruct (add_pair_valid self st e H1 H2) as [st' ->]. simpl.
    apply IH. apply Exists_cons in Hex as [Hbad|Hex]; [|done].
    destruct Hbad. done.
  - by rewrite add_pair_invalid.
Qed.

(** In a list of two samples or more every sample is in some pair. *)
Lemma combinations2_covers {A} (l : list A) x :
  2 ≤ length l → x ∈ l →
  ∃ e, e ∈ combinations2 l ∧ (e.1 = x ∨ e.2 = x).
Proof.
  induction l as [|y l IH]; simpl; intros Hlen Hx; [lia|].
  destruct l as [|z l]; [simpl in Hlen; lia|].
  apply elem_of_cons in Hx as [->|Hx].
  - exists (y, z). split; [simpl; by left|]. by left.
  - apply list_elem_of_In, in_inv in Hx as [->|Hx].
    + exists (y, x). split; [simpl; by left|]. by right.
    + apply list_elem_of_In in Hx.
      destruct l as [|z' l]; [by apply elem_of_nil in Hx|].
      destruct IH as (e & He & Hex); [simpl; lia| by right |].
      exists e. split; [|done]. apply elem_of_app. by right.
Qed.

(** X1: on two samples or more, of which one is not a row of the character
    matrix, [perform_split] raises [IndexError]. *)
Theorem X1_row_out_of_range self samples :
  2 ≤ length samples → ¬ valid_rows self samples →
  perform_split self samples = Raise IndexError.
Proof.
  intros Hlen Hbad. unfold perform_split, similarity_graph.
  rewrite add_pairs_invalid; [done|].
  unfold valid_rows in Hbad. apply not_Forall_Exists in Hbad; [|apply _].
  apply Exists_exists in Hbad as (x & Hx & Hxbad).
  destruct (combinations2_covers samples x Hlen Hx) as ([i j] & He & Hex).
  apply Exists_exists. exists (i, j). split; [done|]. simpl in *.
  intros [Hi Hj]. destruct Hex as [->| ->]; done.
Qed.

Lemma X1_row_out_of_range_witness :
  perform_split four_samples [0; 7] = Raise IndexError.
Proof.
  apply X1_row_out_of_range.
  - simpl. lia.
  - by_evaluation.
Defined.

(** X2: a single sample is returned whole, [([s], [])], whatever the sample
    is: the character matrix is not read. *)
Theorem X2_single_sample self s :
  perform_split self [s] = Ok [[s]; []].
Proof.
  unfold perform_split, similarity_graph. simpl.
  unfold nx.no_edges. by rewrite add_node_edges, bool_decide_eq_true_2.
Qed.

(** ** The percolated graph *)

Lemma percolation_steps_suffix m st st' :
  rtc (percolation_step m) st st' → ∃ popped, st.2 = popped ++ st'.2.
Proof.
  induction 1 as [st|[G pops] [G1 pops1] st' [_ Hstep] _ [popped IH]].
  { by exists []. }
  unfold percolation_round in Hstep. simpl in *.
  destruct pops as [|w pops]; [done|].
  destruct (remove_edges (bucket m w) G); simpl in Hstep; [|done].
  injection Hstep as <- <-. exists (w :: popped). by rewrite IH.
Qed.

(** What the loop returns on the similarity graph of a duplicate-free list
    of valid rows with an edge: a percolating state whose weights are the
    heaviest of the weights of the similar pairs. *)
Lemma percolate_result self samples G m G' rest :
  NoDup samples → valid_rows self samples →
  similarity_graph self samples = Ok (G, m) →
  nx.edges G ≠ ∅ →
  percolate m (reverse (sorted_reverse m)) G = Ok (G', rest) →
  percolating self samples (G', rest) ∧
  2 ≤ length (nx.connected_components G') ∧
  ∃ popped,
    StronglySorted Z.lt (popped ++ rest) ∧
    ∀ e, e ∈ similar_pairs self samples → edge_weight self e ∈ popped ++ rest.
Proof.
  intros Hnd Hvalid Hbuild Hedges Hrun.
  destruct (perform_split_spec self samples Hnd Hvalid)
    as (G0 & m0 & Hbuild0 & HP & Hb & Hcase).
  rewrite Hbuild in Hbuild0. injection Hbuild0 as <- <-.
  destruct Hcase as [[? _]|(_ & G1 & rest1 & Hrun1 & Hrtc & Hcc & _)]; [done|].
  rewrite Hrun in Hrun1. injection Hrun1 as <- <-.
  split; [by eapply percolation_steps_percolating|]. split; [done|].
  destruct (percolation_steps_suffix _ _ _ Hrtc) as [popped Hpopped].
  simpl in Hpopped. exists popped. rewrite <-Hpopped.
  destruct (pops_sorted m) as [Hs Hk]. split; [done|].
  intros e He. apply Hk.
  destruct (similarity_graph_spec self samples Hvalid)
    as (G2 & m2 & Hbuild2 & _ & _ & Hd & _).
  rewrite Hbuild in Hbuild2. injection Hbuild2 as <- <-.
  rewrite Hd, elem_of_list_to_set, list_elem_of_fmap. eauto.
Qed.

(** The two groups [perform_split] returns when some pair is similar: both
    are inhabited, both are made of whole components of the percolated
    graph, and without a merge they are the two components themselves. *)
Lemma perform_split_groups self samples G m :
  NoDup samples → valid_rows self samples →
  similarity_graph self samples = Ok (G, m) →
  nx.edges G ≠ ∅ →
  ∃ G' rest l r,
    percolate m (reverse (sorted_reverse m)) G = Ok (G', rest) ∧
    perform_split self samples = Ok [l; r] ∧
    l ++ r ≡ₚ samples ∧
    l ≠ [] ∧ r ≠ [] ∧
    union_of_components G' l ∧ union_of_components G' r ∧
    (length (nx.connected_components G') ≤ 2 →
     ∃ c1 c2, nx.connected_components G' = [c1; c2]
              ∧ l = list_of_set c1 ∧ r = list_of_set c2).
Proof.
  intros Hnd Hvalid Hbuild Hedges.
  destruct (perform_split_spec self samples Hnd Hvalid)
    as (G0 & m0 & Hbuild0 & HP & Hb & Hcase).
  rewrite Hbuild in Hbuild0. injection Hbuild0 as <- <-.
  destruct Hcase as [[? _]|(_ & G' & rest & Hrun & Hrtc & Hcc & Hpart & Hcase)];
    [done|].
  exists G', rest.
  destruct Hcase as [[Hlen Hsplit]|(Hlen & c1 & c2 & Hcl & Hperm & Hsplit & Hexp)].
  - destruct (nx.connected_components G') as [|c1 [|c2 [|? ?]]] eqn:Hcomps;
      simpl in Hlen; try lia.
    assert (c1 ∈ nx.connected_components G') as Hc1 by (rewrite Hcomps; by left).
    assert (c2 ∈ nx.connected_components G') as Hc2
      by (rewrite Hcomps; right; by left).
    exists (list_of_set c1), (list_of_set c2). split; [done|]. split; [done|].
    simpl in Hpart. rewrite app_nil_r in Hpart. split; [done|].
    split; [exact (connected_components_inhabited G' c1 Hc1)|].
    split; [exact (connected_components_inhabited G' c2 Hc2)|].
    split; [|split].
    + intros x Hx%elem_of_list_of_set. exists c1. rewrite Hcomps.
      split; [by left|]. split; [done|]. intros y. by rewrite elem_of_list_of_set.
    + intros x Hx%elem_of_list_of_set. exists c2. rewrite Hcomps.
      split; [right; by left|]. split; [done|].
      intros y. by rewrite elem_of_list_of_set.
    + intros _. by exists c1, c2.
  - assert (∀ a, a ∈ c1 ++ c2 → a < length (nx.connected_components G')) as Hlt.
    { intros a. rewrite Hperm, list_elem_of_In, in_seq. lia. }
    assert (2 ≤ length (lca_matrix self
                          (map list_of_set (nx.connected_components G')))) as Hl.
    { unfold lca_matrix. rewrite !length_map. lia. }
    destruct (clusters_of_inhabited self _ c1 c2 Hl Hcl) as [Hne1 Hne2].
    exists (expand (map list_of_set (nx.connected_components G')) c1),
           (expand (map list_of_set (nx.connected_components G')) c2).
    split; [exact Hrun|]. split; [exact Hsplit|].
    split; [by rewrite Hexp|].
    split; [apply expand_inhabited; [done|]; intros a Ha; apply Hlt, elem_of_app; by left|].
    split; [apply expand_inhabited; [done|]; intros a Ha; apply Hlt, elem_of_app; by right|].
    split; [apply union_of_components_expand; intros a Ha; apply Hlt, elem_of_app; by left|].
    split; [apply union_of_components_expand; intros a Ha; apply Hlt, elem_of_app; by right|].
    lia.
Qed.

Lemma perform_split_no_similar_pair self samples :
  valid_rows self samples → similar_pairs self samples = [] →
  perform_split self samples = Ok [samples; []].
Proof.
  intros Hvalid Hnone.
  destruct (similarity_graph_spec self samples Hvalid)
    as (G & m & Hbuild & HE & _).
  unfold perform_split. rewrite Hbuild. simpl. unfold nx.no_edges.
  rewrite bool_decide_eq_true_2; [done|]. by rewrite HE, Hnone.
Qed.

Lemma similarity_graph_edges self samples G m :
  valid_rows self samples →
  similarity_graph self samples = Ok (G, m) →
  nx.edges G = list_to_set (similar_pairs self samples).
Proof.
  intros Hvalid Hbuild.
  destruct (similarity_graph_spec self samples Hvalid)
    as (G0 & m0 & Hbuild0 & HE & _).
  rewrite Hbuild in Hbuild0. by injection Hbuild0 as <- <-.
Qed.

(** X3: on a duplicate-free list of valid rows of which at least one pair
    scores at or above the threshold, both groups returned are inhabited:
    each side of the split is strictly smaller than the input. *)
Theorem X3_both_groups_inhabited self samples :
  NoDup samples → valid_rows self samples →
  similar_pairs self samples ≠ [] →
  ∃ l r,
    perform_split self samples = Ok [l; r] ∧
    l ≠ [] ∧ r ≠ [] ∧
    length l < length samples ∧ length r < length samples.
Proof.
  intros Hnd Hvalid Hsome.
  destruct (similarity_graph_spec self samples Hvalid)
    as (G & m & Hbuild & HE & _).
  destruct (perform_split_groups self samples G m Hnd Hvalid Hbuild)
    as (G' & rest & l & r & _ & Hsplit & Hperm & Hl & Hr & _).
  { rewrite HE. destruct (similar_pairs self samples) as [|e es]; [done|].
    set_solver. }
  exists l, r. split; [done|]. split; [done|]. split; [done|].
  rewrite <-Hperm, length_app.
  destruct l; [done|]. destruct r; [done|]. simpl. lia.
Qed.

Lemma X3_both_groups_inhabited_witness :
  ∃ l r,
    perform_split three_samples [0; 1; 2] = Ok [l; r] ∧
    l ≠ [] ∧ r ≠ [] ∧
    length l < length [0; 1; 2] ∧ length r < length [0; 1; 2].
Proof.
  apply (X3_both_groups_inhabited three_samples [0; 1; 2]).
  - by_evaluation.
  - rows_in_range.
  - by_evaluation.
Defined.

(** X4: on a duplicate-free list of valid rows, no sample of the left group
    is joined to a sample of the right group by an edge of the percolated
    graph. *)
Theorem X4_groups_not_adjacent self samples G m G' rest l r :
  NoDup samples → valid_rows self samples →
  similarity_graph self samples = Ok (G, m) →
  percolate m (reverse (sorted_reverse m)) G = Ok (G', rest) →
  perform_split self samples = Ok [l; r] →
  ∀ i j, i ∈ l → j ∈ r → ¬ adjacent G' i j.
Proof.
  intros Hnd Hvalid Hbuild Hrun Hsplit i j Hi Hj Hij.
  destruct (decide (nx.edges G = ∅)) as [Hnone|Hedges].
  - unfold perform_split in Hsplit. rewrite Hbuild in Hsplit. simpl in Hsplit.
    unfold nx.no_edges in Hsplit. rewrite bool_decide_eq_true_2 in Hsplit by done.
    injection Hsplit as <- <-. by apply elem_of_nil in Hj.
  - destruct (perform_split_groups self samples G m Hnd Hvalid Hbuild Hedges)
      as (G1 & rest1 & l1 & r1 & Hrun1 & Hsplit1 & Hperm & _ & _ & Hul & _).
    rewrite Hrun in Hrun1. injection Hrun1 as <- <-.
    rewrite Hsplit in Hsplit1. injection Hsplit1 as <- <-.
    destruct (percolate_result self samples G m G' rest Hnd Hvalid Hbuild Hedges Hrun)
      as (HP & _).
    pose proof (percolating_well_formed self samples _ Hnd HP) as Hwf.
    pose proof (union_of_components_closed G' l i j Hwf Hul Hi Hij) as Hjl.
    assert (NoDup (l ++ r)) as Hnd' by (by rewrite Hperm).
    apply NoDup_app in Hnd' as (_ & Hdisj & _). by apply (Hdisj j).
Qed.

Lemma X4_groups_not_adjacent_witness :
  ∃ G m G' rest l r,
    similarity_graph three_samples [0; 1; 2] = Ok (G, m) ∧
    percolate m (reverse (sorted_reverse m)) G = Ok (G', rest) ∧
    perform_split three_samples [0; 1; 2] = Ok [l; r] ∧
    ∀ i j, i ∈ l → j ∈ r → ¬ adjacent G' i j.
Proof.
  eexists _, _, _, _, _, _.
  split; [reflexivity|]. split; [reflexivity|].
  split; [vm_compute; reflexivity|].
  eapply (X4_groups_not_adjacent three_samples [0; 1; 2]).
  - by_evaluation.
  - rows_in_range.
  - reflexivity.
  - reflexivity.
  - vm_compute. reflexivity.
Defined.

(** X5: on a duplicate-free list of valid rows, every pair at or above the
    threshold that the percolation removed scores strictly less than every
    edge it left in the graph. *)
Theorem X5_removed_pairs_weigh_less self samples G m G' rest :
  NoDup samples → valid_rows self samples →
  similarity_graph self samples = Ok (G, m) →
  percolate m (reverse (sorted_reverse m)) G = Ok (G', rest) →
  ∀ e e',
    e ∈ similar_pairs self samples → e ∉ nx.edges G' → e' ∈ nx.edges G' →
    (edge_weight self e < edge_weight self e')%Z.
Proof.
  intros Hnd Hvalid Hbuild Hrun e e' He Hgone Hstays.
  pose proof (similarity_graph_edges self samples G m Hvalid Hbuild) as HE.
  assert (nx.edges G ≠ ∅) as Hedges.
  { rewrite HE. intros Hnone. apply (not_elem_of_empty (C:=gset (nat * nat)) e).
    rewrite <-Hnone. by apply elem_of_list_to_set. }
  destruct (percolate_result self samples G m G' rest Hnd Hvalid Hbuild Hedges Hrun)
    as ((_ & _ & _ & HE') & _ & popped & Hsorted & Hall).
  simpl in HE'. rewrite HE' in Hgone, Hstays.
  rewrite elem_of_list_to_set, list_elem_of_filter in Hgone, Hstays.
  destruct Hstays as [Hw' _].
  pose proof (Hall e He) as [Hw|Hw]%elem_of_app; [|destruct Hgone; done].
  by apply (StronglySorted_app_1_elem_of Z.lt popped rest).
Qed.

Lemma X5_removed_pairs_weigh_less_witness :
  ∃ G m G' rest,
    similarity_graph four_samples [0; 1; 2; 3] = Ok (G, m) ∧
    percolate m (reverse (sorted_reverse m)) G = Ok (G', rest) ∧
    ∀ e e',
      e ∈ similar_pairs four_samples [0; 1; 2; 3] →
      e ∉ nx.edges G' → e' ∈ nx.edges G' →
      (edge_weight four_samples e < edge_weight four_samples e')%Z.
Proof.
  eexists _, _, _, _.
  split; [reflexivity|]. split; [vm_compute; reflexivity|].
  eapply (X5_removed_pairs_weigh_less four_samples [0; 1; 2; 3]).
  - by_evaluation.
  - rows_in_range.
  - reflexivity.
  - vm_compute. reflexivity.
Defined.

(** X6: on a duplicate-free list of valid rows with a similar pair, when the
    percolation ends with two components (no merge), any two samples of the
    same group are linked by a chain of edges of the percolated graph. *)
Theorem X6_groups_connected self samples G m G' rest l r :
  NoDup samples → valid_rows self samples →
  similarity_graph self samples = Ok (G, m) →
  nx.no_edges G = false →
  percolate m (reverse (sorted_reverse m)) G = Ok (G', rest) →
  length (nx.connected_components G') ≤ 2 →
  perform_split self samples = Ok [l; r] →
  (∀ x y, x ∈ l → y ∈ l → rtc (adjacent G') x y) ∧
  (∀ x y, x ∈ r → y ∈ r → rtc (adjacent G') x y).
Proof.
  intros Hnd Hvalid Hbuild Hedges Hrun Hlen Hsplit.
  apply bool_decide_eq_false in Hedges.
  destruct (perform_split_groups self samples G m Hnd Hvalid Hbuild Hedges)
    as (G1 & rest1 & l1 & r1 & Hrun1 & Hsplit1 & _ & _ & _ & _ & _ & Htwo).
  rewrite Hrun in Hrun1. injection Hrun1 as <- <-.
  rewrite Hsplit in Hsplit1. injection Hsplit1 as <- <-.
  destruct (Htwo Hlen) as (c1 & c2 & Hcomps & -> & ->).
  split; intros x y Hx%elem_of_list_of_set Hy%elem_of_list_of_set.
  - apply (connected_components_connected G' c1); [|done|done].
    rewrite Hcomps. by left.
  - apply (connected_components_connected G' c2); [|done|done].
    rewrite Hcomps. right. by left.
Qed.

Lemma X6_groups_connected_witness :
  ∃ G m G' rest l r,
    similarity_graph four_samples [0; 1; 2; 3] = Ok (G, m) ∧
    percolate m (reverse (sorted_reverse m)) G = Ok (G', rest) ∧
    perform_split four_samples [0; 1; 2; 3] = Ok [l; r] ∧
    (∀ x y, x ∈ l → y ∈ l → rtc (adjacent G') x y) ∧
    (∀ x y, x ∈ r → y ∈ r → rtc (adjacent G') x y).
Proof.
  eexists _, _, _, _, _, _.
  split; [reflexivity|]. split; [vm_compute; reflexivity|].
  split; [vm_compute; reflexivity|].
  eapply (X6_groups_connected four_samples [0; 1; 2; 3]).
  - by_evaluation.
  - rows_in_range.
  - reflexivity.
  - vm_compute. reflexivity.
  - vm_compute. reflexivity.
  - vm_compute. lia.
  - vm_compute. reflexivity.
Defined.

Lemma components_from_length G vs seen :
  length (nx.components_from G vs seen) ≤ length vs.
Proof.
  revert seen. induction vs as [|v vs IH]; intros seen; simpl; [done|].
  case_decide; simpl.
  - specialize (IH seen). lia.
  - specialize (IH (seen ∪ nx.component_of G v)). lia.
Qed.

(** X7: two distinct valid rows are split into the two singletons when they
    score at or above the threshold, and are returned unsplit, with an empty
    right side, when they score below it. *)
Theorem X7_two_samples self a b :
  a ≠ b → valid_rows self [a; b] →
  perform_split self [a; b] =
    if bool_decide (threshold self ≤ edge_weight self (a, b))%Z
    then Ok [[a]; [b]]
    else Ok [[a; b]; []].
Proof.
  intros Hab Hvalid.
  assert (NoDup [a; b]) as Hnd.
  { apply NoDup_cons. split; [by intros ->%list_elem_of_singleton|].
    apply NoDup_singleton. }
  case_bool_decide as Hthr.
  - destruct (similarity_graph_spec self [a; b] Hvalid)
      as (G & m & Hbuild & HE & _).
    assert (similar_pairs self [a; b] = [(a, b)]) as HSP.
    { unfold similar_pairs. simpl. by rewrite filter_cons_True. }
    assert (nx.edges G ≠ ∅) as Hedges by (rewrite HE, HSP; set_solver).
    destruct (perform_split_groups self [a; b] G m Hnd Hvalid Hbuild Hedges)
      as (G' & rest & l & r & Hrun & Hsplit & Hperm & Hl & Hr & _ & _ & Htwo).
    destruct (percolate_result self [a; b] G m G' rest Hnd Hvalid Hbuild Hedges Hrun)
      as ((Hn & _) & _). simpl in Hn.
    destruct Htwo as (c1 & c2 & Hcomps & -> & ->).
    { unfold nx.connected_components.
      etrans; [apply components_from_length|]. by rewrite Hn. }
    assert (a ∈ list_of_set c1) as Ha.
    { unfold nx.connected_components in Hcomps. rewrite Hn in Hcomps.
      simpl in Hcomps. rewrite decide_False in Hcomps by set_solver.
      injection Hcomps as <- _. apply elem_of_list_of_set, component_of_source. }
    rewrite Hsplit. f_equal.
    pose proof (Permutation_length Hperm) as Hlen.
    rewrite length_app in Hlen. simpl in Hlen.
    destruct (list_of_set c1) as [|x [|? ?]] eqn:H1; [done| |
      destruct (list_of_set c2); simpl in Hlen; [done|lia]].
    destruct (list_of_set c2) as [|y [|? ?]] eqn:H2; [done| |simpl in Hlen; lia].
    apply list_elem_of_singleton in Ha as <-.
    simpl in Hperm. apply Permutation_cons_inv, Permutation_singleton_l in Hperm.
    by injection Hperm as ->.
  - apply perform_split_no_similar_pair; [done|].
    unfold similar_pairs. simpl. by rewrite filter_cons_False.
Qed.

Lemma X7_two_samples_witness :
  perform_split four_samples [1; 2] =
    if bool_decide (threshold four_samples ≤ edge_weight four_samples (1%nat, 2%nat))%Z
    then Ok [[1]; [2]]
    else Ok [[1; 2]; []].
Proof.
  apply X7_two_samples.
  - lia.
  - rows_in_range.
Defined.

(** * The preprocessing pipeline *)

(** ** Strings *)

Lemma split_inhabited sep s : pipeline.split sep s ≠ [].
Proof.
  destruct s as [|c s]; simpl; [done|].
  destruct (Ascii.eqb c sep); [done|]. by destruct (pipeline.split sep s).
Qed.

Lemma split_absent sep s :
  pipeline.occurs sep s = false → pipeline.split sep s = [s].
Proof.
  induction s as [|c s IH]; simpl; [done|].
  intros [Hc Hs]%orb_false_iff. rewrite Hc, IH; done.
Qed.

Lemma split_app sep s1 s2 :
  pipeline.split sep (s1 +:+ String sep s2)
  = pipeline.split sep s1 ++ pipeline.split sep s2.
Proof.
  induction s1 as [|c s1 IH]; simpl.
  { by rewrite Ascii.eqb_refl. }
  rewrite IH. destruct (Ascii.eqb c sep); [done|].
  pose proof (split_inhabited sep s1).
  by destruct (pipeline.split sep s1).
Qed.

(** Joining the pieces of a split gives the string back. *)
Lemma join_split sep s :
  pipeline.join (String sep EmptyString) (pipeline.split sep s) = s.
Proof.
  unfold pipeline.join. induction s as [|c s IH]; simpl; [done|].
  destruct (Ascii.eqb_spec c sep) as [->|Hne].
  - pose proof (split_inhabited sep s).
    destruct (pipeline.split sep s) as [|p ps]; [done|]. simpl in *.
    by rewrite IH.
  - pose proof (split_inhabited sep s).
    destruct (pipeline.split sep s) as [|p ps]; [done|]. simpl in *.
    destruct ps; simpl in *; by rewrite <-IH.
Qed.

Lemma last_char_app s c : pipeline.last_char (s +:+ String c EmptyString) = pipeline.Done c.
Proof.
  induction s as [|c' s IH]; simpl; [done|].
  rewrite IH. by destruct s.
Qed.

Lemma but_last_char_app s c : pipeline.but_last_char (s +:+ String c EmptyString) = s.
Proof.
  induction s as [|c' s IH]; simpl; [done|].
  rewrite IH. by destruct s.
Qed.

Lemma last_char_fails s : pipeline.last_char s = pipeline.Fail pipeline.IndexError → s = EmptyString.
Proof.
  induction s as [|c s IH]; simpl; [done|].
  destruct s; [done|]. intros H. by specialize (IH H).
Qed.

Lemma last_char_outcome s :
  s ≠ EmptyString → ∃ c, pipeline.last_char s = pipeline.Done c.
Proof.
  induction s as [|c s IH]; [done|]. intros _. simpl.
  destruct s as [|c' s]; [by eexists|]. by apply IH.
Qed.

Lemma string_app_assoc (s1 s2 s3 : string) : (s1 +:+ s2) +:+ s3 = s1 +:+ s2 +:+ s3.
Proof.
  induction s1 as [|c s1 IH]; [done|].
  change (String c ((s1 +:+ s2) +:+ s3) = String c (s1 +:+ s2 +:+ s3)).
  by rewrite IH.
Qed.

(** The name of the file at the end of a path: the path is empty or ends
    with a slash, the name has no slash. *)
Lemma split_basename dir name :
  dir = EmptyString ∨ (∃ d, dir = d +:+ "/") →
  pipeline.occurs "/"%char name = false →
  pipeline.last_item (pipeline.split "/"%char (dir +:+ name)) = pipeline.Done name.
Proof.
  intros [->|[d ->]] Hname; unfold pipeline.last_item.
  - simpl. by rewrite split_absent.
  - rewrite string_app_assoc.
    change ("/" +:+ name) with (String "/"%char name).
    rewrite split_app, (split_absent _ name) by done.
    by rewrite last_snoc.
Qed.

Lemma occurs_app c s1 s2 :
  pipeline.occurs c (s1 +:+ s2) = pipeline.occurs c s1 || pipeline.occurs c s2.
Proof.
  induction s1 as [|c' s1 IH]; [done|].
  change (pipeline.occurs c (String c' (s1 +:+ s2))
          = pipeline.occurs c (String c' s1) || pipeline.occurs c s2).
  simpl. rewrite IH. by rewrite orb_assoc.
Qed.

(** The string handed to [Path], once the name of the bam file is known. *)
Lemma sorted_file_name_of_basename out_dir c dir name :
  pipeline.last_char out_dir = pipeline.Done c →
  dir = EmptyString ∨ (∃ d, dir = d +:+ "/") →
  pipeline.occurs "/"%char name = false →
  pipeline.sorted_file_name out_dir (dir +:+ name)
  = pipeline.Done
      ((if Ascii.eqb c "/"%char then pipeline.but_last_char out_dir else out_dir)
       +:+ "/"
       +:+ pipeline.join "." (removelast (pipeline.split "."%char name))
       +:+ "_sorted.bam").
Proof.
  intros Hc Hdir Hname. unfold pipeline.sorted_file_name.
  rewrite Hc. simpl. by rewrite split_basename.
Qed.

(** X8: for a bam file [dir/stem.ext] (the directory part may be absent, the
    stem may hold dots, the extension holds none), [collapse_umis] names the
    sorted file [out_dir/stem_sorted.bam]: the last extension only is
    dropped, the directory of the bam file is ignored, and one trailing
    slash of [out_dir] makes no difference. *)
Theorem X8_sorted_file_name base dir stem ext :
  dir = EmptyString ∨ (∃ d, dir = d +:+ "/") →
  pipeline.occurs "/"%char stem = false →
  pipeline.occurs "/"%char ext = false →
  pipeline.occurs "."%char ext = false →
  pipeline.sorted_file_name (base +:+ "/") (dir +:+ stem +:+ "." +:+ ext)
    = pipeline.Done (base +:+ "/" +:+ stem +:+ "_sorted.bam") ∧
  (∀ c, pipeline.last_char base = pipeline.Done c → c ≠ "/"%char →
        pipeline.sorted_file_name base (dir +:+ stem +:+ "." +:+ ext)
        = pipeline.Done (base +:+ "/" +:+ stem +:+ "_sorted.bam")).
Proof.
  intros Hdir Hstem Hext Hdot.
  assert (pipeline.occurs "/"%char (stem +:+ "." +:+ ext) = false) as Hname.
  { rewrite !occurs_app, Hstem, Hext. done. }
  assert (pipeline.join "." (removelast (pipeline.split "."%char (stem +:+ "." +:+ ext)))
          = stem) as Hjoin.
  { change ("." +:+ ext) with (String "."%char ext).
    rewrite split_app, (split_absent _ ext) by done.
    rewrite removelast_last. apply join_split. }
  split.
  - rewrite (sorted_file_name_of_basename _ "/"%char) by
      (done || apply last_char_app).
    rewrite Hjoin. simpl. by rewrite but_last_char_app.
  - intros c Hc Hne.
    rewrite (sorted_file_name_of_basename _ c) by done.
    rewrite Hjoin. by destruct (Ascii.eqb_spec c "/"%char).
Qed.

Lemma X8_sorted_file_name_witness :
  pipeline.sorted_file_name ("out" +:+ "/") ("data/" +:+ "run.1" +:+ "." +:+ "bam")
    = pipeline.Done ("out" +:+ "/" +:+ "run.1" +:+ "_sorted.bam") ∧
  (∀ c, pipeline.last_char "out" = pipeline.Done c → c ≠ "/"%char →
        pipeline.sorted_file_name "out" ("data/" +:+ "run.1" +:+ "." +:+ "bam")
        = pipeline.Done ("out" +:+ "/" +:+ "run.1" +:+ "_sorted.bam")).
Proof.
  apply (X8_sorted_file_name "out" "data/" "run.1" "bam").
  - right. exists "data". reflexivity.
  - reflexivity.
  - reflexivity.
  - reflexivity.
Defined.

(** X9: the naming of the sorted file fails exactly when [out_dir] is the
    empty string, with [IndexError], whatever the bam file is. *)
Theorem X9_sorted_file_name_fails out_dir bam_fp :
  match pipeline.sorted_file_name out_dir bam_fp with
  | pipeline.Fail e => e = pipeline.IndexError ∧ out_dir = EmptyString
  | pipeline.Done _ => out_dir ≠ EmptyString
  end.
Proof.
  destruct (decide (out_dir = EmptyString)) as [->|Hne]; [done|].
  destruct (last_char_outcome out_dir Hne) as [c Hc].
  unfold pipeline.sorted_file_name. rewrite Hc. simpl.
  unfold pipeline.last_item.
  pose proof (split_inhabited "/"%char bam_fp) as Hsplit.
  destruct (last (pipeline.split "/"%char bam_fp)) as [base|] eqn:Hlast.
  - done.
  - by apply last_None in Hlast.
Qed.

(** X10: a bam file whose name has no dot loses its whole name: the sorted
    file is [out_dir/_sorted.bam], whether [out_dir] is given with a
    trailing slash or without. *)
Theorem X10_sorted_file_name_no_extension base dir name :
  dir = EmptyString ∨ (∃ d, dir = d +:+ "/") →
  pipeline.occurs "/"%char name = false →
  pipeline.occurs "."%char name = false →
  pipeline.sorted_file_name (base +:+ "/") (dir +:+ name)
    = pipeline.Done (base +:+ "/" +:+ "_sorted.bam") ∧
  (∀ c, pipeline.last_char base = pipeline.Done c → c ≠ "/"%char →
        pipeline.sorted_file_name base (dir +:+ name)
        = pipeline.Done (base +:+ "/" +:+ "_sorted.bam")).
Proof.
  intros Hdir Hslash Hdot. split.
  - rewrite (sorted_file_name_of_basename _ "/"%char) by
      (done || apply last_char_app).
    rewrite split_absent by done. simpl. by rewrite but_last_char_app.
  - intros c Hc Hne.
    rewrite (sorted_file_name_of_basename _ c) by done.
    rewrite split_absent by done. simpl.
    by destruct (Ascii.eqb_spec c "/"%char).
Qed.

Lemma X10_sorted_file_name_no_extension_witness :
  pipeline.sorted_file_name ("out" +:+ "/") ("data/" +:+ "reads")
    = pipeline.Done ("out" +:+ "/" +:+ "_sorted.bam") ∧
  pipeline.sorted_file_name "out" ("data/" +:+ "reads")
    = pipeline.Done ("out" +:+ "/" +:+ "_sorted.bam").
Proof.
  destruct (X10_sorted_file_name_no_extension "out" "data/" "reads")
    as [Hslash Hplain].
  - right. exists "data". reflexivity.
  - reflexivity.
  - reflexivity.
  - split; [exact Hslash|].
    apply (Hplain "t"%char); [reflexivity|discriminate].
Defined.

(** ** Orders *)

Lemma string_compare_orderly : orderly String.compare.
Proof.
  assert (∀ s, String.compare s s = Eq) as Hrefl.
  { intros s. induction s as [|a s IH]; simpl; [done|].
    unfold Ascii.compare. by rewrite N.compare_refl. }
  assert (∀ a b, String.compare a b ≠ Gt ↔ String.le a b) as Hle.
  { intros a b. unfold String.le, String.leb.
    destruct (String.compare a b); simpl; naive_solver. }
  split.
  - done.
  - intros x y. apply String.compare_antisym.
  - intros x y z Hxy%Hle Hyz%Hle. split.
    + apply Hle. by etrans.
    + intros ->%String.compare_eq_iff.
      assert (y = z) as -> by (by apply (anti_symm String.le)).
      by rewrite Hrefl.
Qed.

Lemma Z_compare_orderly : orderly Z.compare.
Proof.
  split.
  - apply Z.compare_refl.
  - intros x y. apply Z.compare_antisym.
  - intros x y z Hxy Hyz.
    destruct (Z.compare_spec x y), (Z.compare_spec y z), (Z.compare_spec x z);
      try done; try lia; split; by (intros ? || done).
Qed.

Lemma orderly_flip {A} (cmp : A → A → comparison) :
  orderly cmp → orderly (λ x y, cmp y x).
Proof.
  intros [Hr Ha Ht]. split.
  - done.
  - intros x y. apply Ha.
  - intros x y z Hxy Hyz. destruct (Ht z y x Hyz Hxy) as [H1 H2].
    split; [done|]. intros Heq. destruct (H2 Heq). done.
Qed.

Lemma orderly_on {A B} (f : A → B) (cmp : B → B → comparison) :
  orderly cmp → orderly (λ x y, cmp (f x) (f y)).
Proof.
  intros [Hr Ha Ht]. split.
  - intros x. apply Hr.
  - intros x y. apply Ha.
  - intros x y z. apply Ht.
Qed.

Lemma orderly_lexc {A} (cmp1 cmp2 : A → A → comparison) :
  orderly cmp1 → orderly cmp2 → orderly (lexc cmp1 cmp2).
Proof.
  intros [Hr1 Ha1 Ht1] [Hr2 Ha2 Ht2]. unfold lexc. split.
  - intros x. by rewrite Hr1.
  - intros x y. rewrite (Ha1 x y), (Ha2 x y). by destruct (cmp1 x y).
  - intros x y z Hxy Hyz.
    assert (cmp1 x y ≠ Gt) as H1 by (by destruct (cmp1 x y)).
    assert (cmp1 y z ≠ Gt) as H2 by (by destruct (cmp1 y z)).
    destruct (Ht1 x y z H1 H2) as [H3 H4].
    destruct (cmp1 x z) eqn:Hxz; [|by split|done].
    destruct (H4 eq_refl) as [E1 E2]. rewrite E1 in Hxy. rewrite E2 in Hyz.
    destruct (Ht2 x y z Hxy Hyz) as [H5 H6]. split; [done|].
    intros Heq. destruct (H6 Heq) as [E3 E4]. by rewrite E1, E2.
Qed.

Lemma orderly_total {A} (cmp : A → A → comparison) x y :
  orderly cmp → cmp x y ≠ Gt ∨ cmp y x ≠ Gt.
Proof.
  intros [_ Ha _]. rewrite (Ha x y). destruct (cmp x y); simpl; auto.
Qed.

Lemma allele_compare_orderly : orderly pipeline.allele_compare.
Proof.
  apply (orderly_lexc (λ x y, String.compare (pipeline.e_cellBC x) (pipeline.e_cellBC y))
           (lexc (λ x y, String.compare (pipeline.e_intBC x) (pipeline.e_intBC y))
              (lexc (λ x y, Z.compare (pipeline.e_ReadCount y) (pipeline.e_ReadCount x))
                    (λ x y, String.compare (pipeline.e_UMI y) (pipeline.e_UMI x))))).
  - apply (orderly_on pipeline.e_cellBC), string_compare_orderly.
  - apply orderly_lexc.
    + apply (orderly_on pipeline.e_intBC), string_compare_orderly.
    + apply orderly_lexc.
      * apply (orderly_flip (λ x y, Z.compare (pipeline.e_ReadCount x) (pipeline.e_ReadCount y))).
        apply (orderly_on pipeline.e_ReadCount), Z_compare_orderly.
      * apply (orderly_flip (λ x y, String.compare (pipeline.e_UMI x) (pipeline.e_UMI y))).
        apply (orderly_on pipeline.e_UMI), string_compare_orderly.
Qed.

#[local] Instance allele_le_total : Total pipeline.allele_le.
Proof. intros x y. apply orderly_total, allele_compare_orderly. Qed.

#[local] Instance allele_le_trans : Transitive pipeline.allele_le.
Proof.
  intros x y z Hxy Hyz.
  by destruct (orderly_trans _ allele_compare_orderly x y z Hxy Hyz).
Qed.

(** Rows that the sort cannot tell apart have the same key. *)
Lemma allele_compare_Eq x y :
  pipeline.allele_compare x y = Eq → umi_key x = umi_key y.
Proof.
  unfold pipeline.allele_compare, umi_key.
  destruct (String.compare (pipeline.e_cellBC x) (pipeline.e_cellBC y)) eqn:H1;
    [|done..].
  destruct (String.compare (pipeline.e_intBC x) (pipeline.e_intBC y)) eqn:H2;
    [|done..].
  destruct (Z.compare (pipeline.e_ReadCount y) (pipeline.e_ReadCount x)); [|done..].
  intros H3.
  apply String.compare_eq_iff in H1, H2, H3. by rewrite H1, H2, H3.
Qed.

Lemma NoDup_fmap_eq {A B} (f : A → B) (l : list A) x y :
  NoDup (f <$> l) → x ∈ l → y ∈ l → f x = f y → x = y.
Proof.
  induction l as [|a l IH]; simpl; [by intros _ ?%elem_of_nil|].
  intros [Ha Hnd]%NoDup_cons [->|Hx]%elem_of_cons [->|Hy]%elem_of_cons Heq;
    [done| | |by apply IH].
  - destruct Ha. rewrite Heq. by apply list_elem_of_fmap_2.
  - destruct Ha. rewrite <-Heq. by apply list_elem_of_fmap_2.
Qed.

(** A table without repeated keys that is sorted is strictly sorted. *)
Lemma sorted_alleles_strict (l : list pipeline.Allele) :
  NoDup (umi_key <$> l) → StronglySorted pipeline.allele_le l →
  StronglySorted allele_lt l.
Proof.
  intros Hnd Hs. induction Hs as [|x l _ IH Hx]; [constructor|].
  simpl in Hnd. apply NoDup_cons in Hnd as [Hxl Hnd].
  constructor; [by apply IH|].
  rewrite Forall_forall in Hx |- *. intros y Hy. specialize (Hx y Hy).
  unfold pipeline.allele_le in Hx. unfold allele_lt.
  destruct (pipeline.allele_compare x y) eqn:Hc; [|done..].
  destruct Hxl. rewrite (allele_compare_Eq x y Hc).
  by apply list_elem_of_fmap_2.
Qed.

(** ** error_correct_umis *)

(** The size of a group is the number of times its key occurs among the
    keys of the rows. *)
Lemma group_size_count {Row} (key : Row → string * string * string) table k :
  length (filter (λ row, key row = k) table)
  = count_occ (decide_rel (=)) (key <$> table) k.
Proof.
  induction table as [|row table IH]; [done|].
  rewrite filter_cons, fmap_cons. simpl.
  destruct (decide (key row = k)), (decide_rel eq (key row) k);
    simpl; try done. by rewrite IH.
Qed.

(** No group of a [groupby] has two rows or more exactly when no key occurs
    twice among the rows. *)
Lemma groupby_size_unique {Row} (key : Row → string * string * string) table :
  length (filter (λ i, 1 < i) (pipeline.groupby_size key table)) = 0
  ↔ NoDup (key <$> table).
Proof.
  rewrite length_zero_iff_nil. unfold pipeline.groupby_size.
  rewrite NoDup_ListNoDup,
    (NoDup_count_occ (A:=string * string * string) (decide_rel (=))
       (key <$> table)).
  split.
  - intros Hnone k.
    destruct (decide (k ∈ key <$> table)) as [Hin|Hout].
    + destruct (decide (1 < count_occ (decide_rel (=)) (key <$> table) k))
        as [Hmany|]; [|lia].
      exfalso.
      assert (length (filter (λ row, key row = k) table)
              ∈ filter (λ i, 1 < i)
                  (map (λ k, length (filter (λ row, key row = k) table))
                       (merge_sort pipeline.triple_le (remove_dups (map key table)))))
        as Hin'.
      { apply list_elem_of_filter. split; [by rewrite group_size_count|].
        apply list_elem_of_fmap. exists k. split; [done|].
        rewrite merge_sort_Permutation. by apply elem_of_remove_dups. }
      rewrite Hnone in Hin'. by apply elem_of_nil in Hin'.
    + rewrite list_elem_of_In in Hout.
      apply (count_occ_not_In (decide_rel (=))) in Hout.
      rewrite Hout. lia.
  - intros Hcount.
    destruct (filter _ _) as [|i rest] eqn:Hfilter; [done|]. exfalso.
    assert (i ∈ i :: rest) as Hi by (by left).
    rewrite <-Hfilter in Hi.
    apply list_elem_of_filter in Hi as [Hmany (k & -> & _)%list_elem_of_fmap].
    rewrite group_size_count in Hmany. specialize (Hcount k). lia.
Qed.

(** X11: the assertion at the head of [error_correct_umis], that no group
    of the rows by (cellBC, intBC, UMI) has two rows or more, holds exactly
    when no two rows of the input bear the same triple; on an input where a
    triple is borne twice [error_correct_umis] raises [AssertionError],
    whatever the other arguments and the correction of the groups are. *)
Theorem X11_error_correct_umis_assertion correct_umis_in_group input_df _id d :
  (length (filter (λ i, 1 < i) (pipeline.groupby_size umi_key input_df)) = 0
   ↔ NoDup (umi_key <$> input_df)) ∧
  (¬ NoDup (umi_key <$> input_df) →
   pipeline.error_correct_umis correct_umis_in_group input_df _id d
   = pipeline.Fail pipeline.AssertionError).
Proof.
  split; [apply groupby_size_unique|].
  intros Hdup. unfold pipeline.error_correct_umis.
  fold umi_key. rewrite decide_False; [done|].
  by rewrite groupby_size_unique.
Qed.

Lemma X11_error_correct_umis_assertion_witness :
  pipeline.error_correct_umis (λ group _ _, (group, 0%Z, 1%Z))
    [ {| pipeline.e_readName := "r1"; pipeline.e_cellBC := "A";
         pipeline.e_intBC := "X"; pipeline.e_UMI := "AC";
         pipeline.e_ReadCount := 3; pipeline.e_allele := "" |};
      {| pipeline.e_readName := "r2"; pipeline.e_cellBC := "B";
         pipeline.e_intBC := "X"; pipeline.e_UMI := "AC";
         pipeline.e_ReadCount := 5; pipeline.e_allele := "" |};
      {| pipeline.e_readName := "r3"; pipeline.e_cellBC := "A";
         pipeline.e_intBC := "X"; pipeline.e_UMI := "AC";
         pipeline.e_ReadCount := 7; pipeline.e_allele := "" |} ]
    "sample" 2
  = pipeline.Fail pipeline.AssertionError.
Proof.
  apply X11_error_correct_umis_assertion.
  by_evaluation.
Defined.

(** X12: with [max_UMI_distance = 0] and no repeated (cellBC, intBC, UMI)
    triple, [error_correct_umis] returns the rows of the input, each once,
    strictly sorted by cellBC, then intBC, then decreasing read count, then
    decreasing UMI; no other sorted arrangement of the rows exists. *)
Theorem X12_error_correct_umis_distance_zero correct_umis_in_group input_df _id :
  NoDup (umi_key <$> input_df) →
  ∃ sorted_df,
    pipeline.error_correct_umis correct_umis_in_group input_df _id 0
      = pipeline.Done sorted_df ∧
    sorted_df ≡ₚ input_df ∧
    StronglySorted allele_lt sorted_df ∧
    ∀ other, other ≡ₚ input_df → Sorted pipeline.allele_le other →
             other = sorted_df.
Proof.
  intros Hnd. exists (merge_sort pipeline.allele_le input_df).
  assert (merge_sort pipeline.allele_le input_df ≡ₚ input_df) as Hperm
    by apply merge_sort_Permutation.
  split; [|split; [done|split]].
  - unfold pipeline.error_correct_umis. fold umi_key.
    rewrite decide_True by (by apply groupby_size_unique).
    by rewrite decide_True.
  - apply sorted_alleles_strict; [by rewrite Hperm|].
    apply StronglySorted_merge_sort; apply _.
  - intros other Hother Hsorted.
    apply (Sorted_unique_strong pipeline.allele_le);
      [|done|apply Sorted_merge_sort, _|by rewrite Hperm].
    intros x y Hx Hy Hxy Hyx.
    apply (NoDup_fmap_eq umi_key input_df); [done| | |].
    + by rewrite <-Hother.
    + by rewrite <-Hperm.
    + apply allele_compare_Eq. unfold pipeline.allele_le in *.
      rewrite (orderly_antisym _ allele_compare_orderly x y) in Hyx.
      by destruct (pipeline.allele_compare x y).
Qed.

Lemma X12_error_correct_umis_distance_zero_witness :
  ∃ sorted_df,
    pipeline.error_correct_umis (λ group _ _, (group, 0%Z, 0%Z))
      [ {| pipeline.e_readName := "r1"; pipeline.e_cellBC := "A";
           pipeline.e_intBC := "X"; pipeline.e_UMI := "AC";
           pipeline.e_ReadCount := 3; pipeline.e_allele := "" |};
        {| pipeline.e_readName := "r2"; pipeline.e_cellBC := "A";
           pipeline.e_intBC := "X"; pipeline.e_UMI := "GT";
           pipeline.e_ReadCount := 7; pipeline.e_allele := "" |} ]
      "sample" 0
      = pipeline.Done sorted_df ∧
    sorted_df ≡ₚ
      [ {| pipeline.e_readName := "r1"; pipeline.e_cellBC := "A";
           pipeline.e_intBC := "X"; pipeline.e_UMI := "AC";
           pipeline.e_ReadCount := 3; pipeline.e_allele := "" |};
        {| pipeline.e_readName := "r2"; pipeline.e_cellBC := "A";
           pipeline.e_intBC := "X"; pipeline.e_UMI := "GT";
           pipeline.e_ReadCount := 7; pipeline.e_allele := "" |} ] ∧
    StronglySorted allele_lt sorted_df ∧
    ∀ other,
      other ≡ₚ
        [ {| pipeline.e_readName := "r1"; pipeline.e_cellBC := "A";
             pipeline.e_intBC := "X"; pipeline.e_UMI := "AC";
             pipeline.e_ReadCount := 3; pipeline.e_allele := "" |};
          {| pipeline.e_readName := "r2"; pipeline.e_cellBC := "A";
             pipeline.e_intBC := "X"; pipeline.e_UMI := "GT";
             pipeline.e_ReadCount := 7; pipeline.e_allele := "" |} ] →
      Sorted pipeline.allele_le other → other = sorted_df.
Proof.
  apply X12_error_correct_umis_distance_zero.
  by_evaluation.
Defined.

(** X13: on an empty table [error_correct_umis] returns the empty table
    when [max_UMI_distance] is 0 and raises [ZeroDivisionError] otherwise:
    no UMI was looked at, and the share of corrected UMIs is computed all
    the same. *)
Theorem X13_error_correct_umis_empty correct_umis_in_group _id d :
  pipeline.error_correct_umis correct_umis_in_group [] _id d
  = if decide (d = 0%Z) then pipeline.Done []
    else pipeline.Fail pipeline.ZeroDivisionError.
Proof.
  unfold pipeline.error_correct_umis.
  rewrite decide_True by reflexivity.
  by case_decide.
Qed.

(** ** resolve_umi_sequence: where the plots go *)

Lemma prefix_app s t : String.prefix s (s +:+ t) = true.
Proof.
  induction s as [|a s IH].
  { by destruct t. }
  change (String.prefix (String a s) (String a (s +:+ t)) = true).
  simpl. by destruct (Ascii.ascii_dec a a).
Qed.

(** X14: whatever the output directory is, the plot of total against top
    reads is saved at [/total_vs_top_reads_pickSeq.png], at the root of the
    file system; the two other plots are saved under paths that start with
    the output directory. *)
Theorem X14_plot_paths output_directory :
  (pipeline.plot_paths output_directory).1.2 = "/total_vs_top_reads_pickSeq.png" ∧
  String.prefix output_directory (pipeline.plot_paths output_directory).1.1 = true ∧
  String.prefix output_directory (pipeline.plot_paths output_directory).2 = true.
Proof.
  unfold pipeline.plot_paths, pipeline.os_path_join. simpl.
  split; [done|]. split; [|apply prefix_app].
  destruct (pipeline.last_char output_directory) as [c|e]; [|apply prefix_app].
  destruct (Ascii.eqb c "/"%char); apply prefix_app.
Qed.

(** ** align_sequences *)

Lemma dict_set_fresh {V} (d : list (string * V)) k v :
  k ∉ d.*1 → pipeline.dict_set d k v = d ++ [(k, v)].
Proof.
  induction d as [|[k' v'] d IH]; simpl; [done|].
  intros Hk. apply not_elem_of_cons in Hk as [Hne Hk].
  destruct (String.eqb_spec k' k) as [->|_]; [done|]. by rewrite IH.
Qed.

Lemma dict_set_keys {V} (d : list (string * V)) k v :
  (pipeline.dict_set d k v).*1 = if decide (k ∈ d.*1) then d.*1 else d.*1 ++ [k].
Proof.
  induction d as [|[k' v'] d IH].
  { by rewrite decide_False by apply not_elem_of_nil. }
  change (((k', v') :: d).*1) with (k' :: d.*1).
  change (pipeline.dict_set ((k', v') :: d) k v)
    with (if String.eqb k' k then (k', v) :: d
          else (k', v') :: pipeline.dict_set d k v).
  destruct (String.eqb_spec k' k) as [->|Hne].
  - rewrite decide_True; [done|by left].
  - change (((k', v') :: pipeline.dict_set d k v).*1)
      with (k' :: (pipeline.dict_set d k v).*1).
    rewrite IH. destruct (decide (k ∈ d.*1)) as [Hin|Hout].
    + rewrite decide_True; [done|by right].
    + rewrite decide_False; [done|]. by intros [->|?]%elem_of_cons.
Qed.

Lemma dict_set_elem_of {V} (d : list (string * V)) k v k' v' :
  NoDup d.*1 →
  (k', v') ∈ pipeline.dict_set d k v ↔
  (k' = k ∧ v' = v) ∨ (k' ≠ k ∧ (k', v') ∈ d).
Proof.
  induction d as [|[k0 v0] d IH]; simpl.
  { intros _. rewrite list_elem_of_singleton. split.
    - intros [= -> ->]. by left.
    - intros [[-> ->]|[_ ?%elem_of_nil]]; done. }
  intros [Hk0 Hnd]%NoDup_cons.
  destruct (String.eqb_spec k0 k) as [->|Hne].
  - rewrite !elem_of_cons. split.
    + intros [[= -> ->]|Hin]; [by left|]. right. split; [|by right].
      intros ->. apply Hk0. by apply (list_elem_of_fmap_2 fst _ (k, v')).
    + intros [[-> ->]|[Hne [[= -> ->]|Hin]]]; [by left|done|by right].
  - rewrite !elem_of_cons, IH by done. split.
    + intros [[= -> ->]|[[-> ->]|[? ?]]]; [right; split; [done|by left]|by left|].
      right. split; [done|by right].
    + intros [[-> ->]|[? [[= -> ->]|?]]]; [right; by left|by left|].
      right. right. done.
Qed.

(** X15: on an empty table of queries, with a reference sequence given and
    no reference file, [align_sequences] raises [ZeroDivisionError]: the
    average time per sequence is computed over zero sequences. *)
Theorem X15_align_sequences_empty (Penalty : Type) aligner SeqIO_parse
    c ref (gap_open_penalty gap_extend_penalty : Penalty) :
  pipeline.align_sequences Penalty aligner SeqIO_parse []
    None (Some (String c ref)) gap_open_penalty gap_extend_penalty
  = pipeline.Fail pipeline.ZeroDivisionError.
Proof. reflexivity. Qed.

Lemma align_sequences_dictionary {Penalty : Type}
    (aligner : Penalty → Penalty → string → string → pipeline.Alignment)
    go ge ref (queries : list pipeline.Molecule)
    (d : list (string * (string * string * Z * pipeline.Alignment))) :
  NoDup (d.*1 ++ (pipeline.readName <$> queries)) →
  foldl (λ d query,
           pipeline.dict_set d (pipeline.readName query)
             (pipeline.cellBC query, pipeline.UMI query, pipeline.readCount query,
              aligner go ge (pipeline.seq query) ref))
        d queries
  = d ++ map (λ query,
                (pipeline.readName query,
                 (pipeline.cellBC query, pipeline.UMI query, pipeline.readCount query,
                  aligner go ge (pipeline.seq query) ref)))
             queries.
Proof.
  revert d. induction queries as [|q queries IH]; intros d Hnd; simpl.
  { by rewrite app_nil_r. }
  rewrite dict_set_fresh.
  - rewrite IH.
    + by rewrite <-app_assoc.
    + rewrite fmap_app. simpl. by rewrite <-app_assoc.
  - apply NoDup_app in Hnd as (_ & Hd & _). intros Hin.
    apply (Hd _ Hin). by left.
Qed.

(** X16: with a reference sequence given and no reference file, on a
    non-empty table of queries whose read names are all different,
    [align_sequences] returns one row per query, in the order of the
    queries, with the name, barcodes and read count of the query and the
    alignment of its sequence against the reference. *)
Theorem X16_align_sequences_rows (Penalty : Type) aligner SeqIO_parse
    queries c ref (gap_open_penalty gap_extend_penalty : Penalty) :
  queries ≠ [] →
  NoDup (pipeline.readName <$> queries) →
  pipeline.align_sequences Penalty aligner SeqIO_parse queries
    None (Some (String c ref)) gap_open_penalty gap_extend_penalty
  = pipeline.Done
      (map (aligned_read aligner gap_open_penalty gap_extend_penalty (String c ref))
           queries).
Proof.
  intros Hne Hnd. unfold pipeline.align_sequences. simpl.
  rewrite decide_False by (by destruct queries).
  rewrite (align_sequences_dictionary aligner) by done. simpl.
  f_equal. rewrite map_map. by apply map_ext.
Qed.

Lemma X16_align_sequences_rows_witness :
  pipeline.align_sequences Z
    (λ _ _ query _, {| pipeline.cigar := "4M"; pipeline.query_begin := 0;
                       pipeline.target_begin := 0;
                       pipeline.optimal_alignment_score := 8;
                       pipeline.query_sequence := query |})
    (λ _, pipeline.Done [])
    [ {| pipeline.readName := "r2"; pipeline.cellBC := "B"; pipeline.UMI := "GG";
         pipeline.readCount := 5; pipeline.seq := "TTTT" |};
      {| pipeline.readName := "r1"; pipeline.cellBC := "A"; pipeline.UMI := "AC";
         pipeline.readCount := 3; pipeline.seq := "ACGT" |};
      {| pipeline.readName := "r3"; pipeline.cellBC := "A"; pipeline.UMI := "AC";
         pipeline.readCount := 3; pipeline.seq := "ACGT" |} ]
    None (Some (String "A"%char "CGT")) 20%Z 1%Z
  = pipeline.Done
      (map (aligned_read
              (λ _ _ query _, {| pipeline.cigar := "4M"; pipeline.query_begin := 0;
                                 pipeline.target_begin := 0;
                                 pipeline.optimal_alignment_score := 8;
                                 pipeline.query_sequence := query |})
              20%Z 1%Z (String "A"%char "CGT"))
           [ {| pipeline.readName := "r2"; pipeline.cellBC := "B"; pipeline.UMI := "GG";
                pipeline.readCount := 5; pipeline.seq := "TTTT" |};
             {| pipeline.readName := "r1"; pipeline.cellBC := "A"; pipeline.UMI := "AC";
                pipeline.readCount := 3; pipeline.seq := "ACGT" |};
             {| pipeline.readName := "r3"; pipeline.cellBC := "A"; pipeline.UMI := "AC";
                pipeline.readCount := 3; pipeline.seq := "ACGT" |} ]).
Proof.
  apply X16_align_sequences_rows.
  - discriminate.
  - by_evaluation.
Defined.

(** What the dictionary of alignments holds once the queries [aligned] have
    been aligned: one entry per read name, that of the last query so
    named. *)
Lemma align_sequences_last_wins {V} (entry : pipeline.Molecule → V)
    (queries aligned : list pipeline.Molecule) (d : list (string * V)) :
  NoDup d.*1 →
  (∀ k v, (k, v) ∈ d ↔
     ∃ before q after,
       aligned = before ++ q :: after ∧
       pipeline.readName q ∉ pipeline.readName <$> after ∧
       k = pipeline.readName q ∧ v = entry q) →
  let d' := foldl (λ d query, pipeline.dict_set d (pipeline.readName query) (entry query))
                  d queries in
  NoDup d'.*1 ∧
  (∀ k v, (k, v) ∈ d' ↔
     ∃ before q after,
       aligned ++ queries = before ++ q :: after ∧
       pipeline.readName q ∉ pipeline.readName <$> after ∧
       k = pipeline.readName q ∧ v = entry q).
Proof.
  revert aligned d. induction queries as [|q queries IH]; intros aligned d Hnd Hd; simpl.
  { rewrite app_nil_r. done. }
  replace (aligned ++ q :: queries) with ((aligned ++ [q]) ++ queries)
    by (by rewrite <-app_assoc).
  apply IH.
  - rewrite dict_set_keys. case_decide as Hin; [done|].
    apply NoDup_app. split; [done|]. split; [|apply NoDup_singleton].
    by intros k Hk ->%list_elem_of_singleton.
  - intros k v. rewrite dict_set_elem_of by done. split.
    + intros [[-> ->]|[Hne Hin]].
      * exists aligned, q, []. split; [done|]. split; [apply not_elem_of_nil|done].
      * apply Hd in Hin as (before & q' & after & -> & Hlast & -> & ->).
        exists before, q', (after ++ [q]). split; [by rewrite <-app_assoc|].
        split; [|done]. rewrite fmap_app, elem_of_app. simpl.
        rewrite list_elem_of_singleton. naive_solver.
    + intros (before & q' & after & Heq & Hlast & -> & ->).
      destruct after as [|a after _] using rev_ind.
      * apply app_inj_tail in Heq as [_ ->]. by left.
      * rewrite app_comm_cons, app_assoc in Heq.
        apply app_inj_tail in Heq as [-> ->].
        rewrite fmap_app, elem_of_app in Hlast. simpl in Hlast.
        rewrite list_elem_of_singleton in Hlast.
        right. split; [naive_solver|]. apply Hd.
        exists before, q', after. naive_solver.
Qed.

(** X17: with a reference sequence given and no reference file, on a
    non-empty table of queries [align_sequences] returns one row per read
    name; when several queries bear the same read name, the row is that of
    the last of them and the earlier ones are dropped. *)
Theorem X17_align_sequences_last_wins (Penalty : Type) aligner SeqIO_parse
    queries c ref (gap_open_penalty gap_extend_penalty : Penalty) :
  queries ≠ [] →
  ∃ rows,
    pipeline.align_sequences Penalty aligner SeqIO_parse queries
      None (Some (String c ref)) gap_open_penalty gap_extend_penalty
    = pipeline.Done rows ∧
    NoDup (pipeline.a_readName <$> rows) ∧
    ∀ row, row ∈ rows ↔
      ∃ before q after,
        queries = before ++ q :: after ∧
        pipeline.readName q ∉ pipeline.readName <$> after ∧
        row = aligned_read aligner gap_open_penalty gap_extend_penalty
                (String c ref) q.
Proof.
  intros Hne. unfold pipeline.align_sequences. simpl.
  rewrite decide_False by (by destruct queries).
  eexists. split; [reflexivity|].
  destruct (align_sequences_last_wins
              (λ query, (pipeline.cellBC query, pipeline.UMI query,
                         pipeline.readCount query,
                         aligner gap_open_penalty gap_extend_penalty
                                 (pipeline.seq query) (String c ref)))
              queries [] []) as [Hnd Hd].
  { constructor. }
  { intros k v. split; [by intros ?%elem_of_nil|].
    intros (before & q & after & Heq & _). by destruct before. }
  simpl in Hnd, Hd. split.
  - rewrite <-list_fmap_compose.
    erewrite list_fmap_ext; [exact Hnd|]. by intros i [k [[[? ?] ?] ?]].
  - intros row. rewrite list_elem_of_fmap. split.
    + intros ([k [[[cell umi] count] aln]] & -> & Hin).
      apply Hd in Hin as (before & q & after & Heq & Hlast & -> & Hv).
      injection Hv as -> -> -> ->. by exists before, q, after.
    + intros (before & q & after & Heq & Hlast & ->).
      eexists (_, (_, _, _, _)). split; [|apply Hd; by exists before, q, after].
      done.
Qed.

Lemma X17_align_sequences_last_wins_witness :
  ∃ rows,
    pipeline.align_sequences Z
      (λ _ _ query _, {| pipeline.cigar := "4M"; pipeline.query_begin := 0;
                         pipeline.target_begin := 0;
                         pipeline.optimal_alignment_score := 8;
                         pipeline.query_sequence := query |})
      (λ _, pipeline.Done [])
      [ {| pipeline.readName := "r1"; pipeline.cellBC := "A"; pipeline.UMI := "AC";
           pipeline.readCount := 3; pipeline.seq := "ACGT" |};
        {| pipeline.readName := "r1"; pipeline.cellBC := "B"; pipeline.UMI := "GG";
           pipeline.readCount := 5; pipeline.seq := "TTTT" |} ]
      None (Some (String "A"%char "CGT")) 20%Z 1%Z
    = pipeline.Done rows ∧
    NoDup (pipeline.a_readName <$> rows) ∧
    ∀ row, row ∈ rows ↔
      ∃ before q after,
        [ {| pipeline.readName := "r1"; pipeline.cellBC := "A"; pipeline.UMI := "AC";
             pipeline.readCount := 3; pipeline.seq := "ACGT" |};
          {| pipeline.readName := "r1"; pipeline.cellBC := "B"; pipeline.UMI := "GG";
             pipeline.readCount := 5; pipeline.seq := "TTTT" |} ]
          = before ++ q :: after ∧
        pipeline.readName q ∉ pipeline.readName <$> after ∧
        row = aligned_read
                (λ _ _ query _, {| pipeline.cigar := "4M"; pipeline.query_begin := 0;
                                   pipeline.target_begin := 0;
                                   pipeline.optimal_alignment_score := 8;
                                   pipeline.query_sequence := query |})
                20%Z 1%Z (String "A"%char "CGT") q.
Proof.
  apply X17_align_sequences_last_wins. discriminate.
Defined.

(** ** resolve_umi_sequence *)

#[local] Instance by_read_count_trans : Transitive by_read_count.
Proof. intros x y z. unfold by_read_count. lia. Qed.

#[local] Instance by_read_count_total : Total by_read_count.
Proof. intros x y. unfold by_read_count. lia. Qed.

Section ResolveUMIFacts.

Variable sort_values : list pipeline.Molecule → list pipeline.Molecule.
Hypothesis sort_values_perm : ∀ l, sort_values l ≡ₚ l.
Hypothesis sort_values_sorted : ∀ l, Sorted by_read_count (sort_values l).

Lemma mark_bad_lookup (bad : list pipeline.Molecule) (m : gmap string bool) n :
  foldl (λ m b, <[ pipeline.readName b := true ]> m) m bad !! n
  = if decide (n ∈ pipeline.readName <$> bad) then Some true else m !! n.
Proof.
  revert m. induction bad as [|b bad IH]; intros m.
  { by rewrite decide_False by apply not_elem_of_nil. }
  cbn [foldl]. rewrite fmap_cons.
  rewrite IH. destruct (decide (n ∈ pipeline.readName <$> bad)) as [Hin|Hout].
  - rewrite decide_True; [done|by right].
  - destruct (decide (n = pipeline.readName b)) as [->|Hne].
    + rewrite lookup_insert_eq. rewrite decide_True; [done|by left].
    + rewrite lookup_insert_ne by done. rewrite decide_False; [done|].
      by intros [?|?]%elem_of_cons.
Qed.

Lemma mark_bad_loop (group_sort : list pipeline.Molecule) (marked bad : list pipeline.Molecule)
    (m : gmap string bool) :
  group_sort = marked ++ bad →
  pipeline.loop
    (λ mt_filter i,
       match group_sort !! i with
       | Some bad => pipeline.Done (<[ pipeline.readName bad := true ]> mt_filter)
       | None => pipeline.Fail pipeline.IndexError
       end)
    (List.seq (length marked) (length bad)) m
  = pipeline.Done (foldl (λ m b, <[ pipeline.readName b := true ]> m) m bad).
Proof.
  revert marked m. induction bad as [|b bad IH]; intros marked m Heq; simpl; [done|].
  assert (group_sort !! length marked = Some b) as ->.
  { rewrite Heq. by rewrite list_lookup_middle. }
  simpl. replace (S (length marked)) with (length (marked ++ [b]))
    by (rewrite length_app; simpl; lia).
  apply IH. by rewrite <-app_assoc.
Qed.

(** What the loop body leaves in [mt_filter] for one group: the read kept is
    marked [False], the other reads of the group [True], and the kept read
    has the largest read count of the group. *)
Lemma mark_group_spec (m0 : gmap string bool) (group : list pipeline.Molecule) :
  group ≠ [] → NoDup (pipeline.readName <$> group) →
  ∃ good m1,
    pipeline.mark_group sort_values m0 group = pipeline.Done m1 ∧
    good ∈ group ∧
    (∀ row, row ∈ group → (pipeline.readCount row ≤ pipeline.readCount good)%Z) ∧
    ∀ n, m1 !! n =
         if decide (n = pipeline.readName good) then Some false
         else if decide (n ∈ pipeline.readName <$> group) then Some true
         else m0 !! n.
Proof.
  intros Hne Hnd. unfold pipeline.mark_group.
  case_decide as Hone.
  - destruct group as [|x [|? ?]]; simpl in Hone; try done.
    exists x, (<[ pipeline.readName x := false ]> m0). split; [done|].
    split; [by left|]. split.
    { intros row ->%list_elem_of_singleton. lia. }
    intros n. case_decide as Hn; [subst; by rewrite lookup_insert_eq|].
    rewrite lookup_insert_ne by done.
    rewrite decide_False; [done|]. simpl. by intros ->%list_elem_of_singleton.
  - pose proof (sort_values_perm group) as Hperm.
    pose proof (sort_values_sorted group) as Hsorted.
    destruct (sort_values group) as [|good bad] eqn:Hsort.
    { apply Permutation_nil_l in Hperm. by subst. }
    simpl.
    assert (length group - 1 = length bad) as ->.
    { apply Permutation_length in Hperm. simpl in Hperm. lia. }
    rewrite (mark_bad_loop (good :: bad) [good] bad) by reflexivity.
    eexists good, _. split; [done|].
    split; [rewrite <-Hperm; by left|]. split.
    { intros row. rewrite <-Hperm.
      apply (Sorted_StronglySorted by_read_count) in Hsorted.
      apply StronglySorted_cons in Hsorted as [Hall _].
      rewrite Forall_forall in Hall.
      intros [->|Hin]%elem_of_cons; [lia|]. by apply Hall. }
    intros n. rewrite mark_bad_lookup.
    assert (NoDup (pipeline.readName <$> good :: bad)) as Hnd'
      by (by rewrite Hperm).
    rewrite fmap_cons in Hnd'. apply NoDup_cons in Hnd' as [Hgood _].
    assert (n ∈ pipeline.readName <$> group
            ↔ n = pipeline.readName good ∨ n ∈ pipeline.readName <$> bad) as Hin.
    { by rewrite <-Hperm, fmap_cons, elem_of_cons. }
    destruct (decide (n = pipeline.readName good)) as [->|Hn].
    + rewrite decide_False by done. by rewrite lookup_insert_eq.
    + rewrite lookup_insert_ne by done.
      destruct (decide (n ∈ pipeline.readName <$> bad)),
               (decide (n ∈ pipeline.readName <$> group)); naive_solver.
Qed.

End ResolveUMIFacts.

Section ResolveUMITable.

Variable sort_values : list pipeline.Molecule → list pipeline.Molecule.
Hypothesis sort_values_perm : ∀ l, sort_values l ≡ₚ l.
Hypothesis sort_values_sorted : ∀ l, Sorted by_read_count (sort_values l).

Variable molecule_table : list pipeline.Molecule.
Hypothesis names_differ : NoDup (pipeline.readName <$> molecule_table).

Lemma same_name_same_row x y :
  x ∈ molecule_table → y ∈ molecule_table →
  pipeline.readName x = pipeline.readName y → x = y.
Proof. by apply NoDup_fmap_eq. Qed.

(** The loop over the groups of the keys [ks]: for each key one read of the
    table is kept, of the largest read count under that key, and the reads
    under other keys are left as they were. *)
Lemma mark_groups_spec (ks : list (string * string)) (m0 : gmap string bool) :
  NoDup ks →
  (∀ k, k ∈ ks → ∃ row, row ∈ molecule_table ∧ molecule_key row = k) →
  ∃ m,
    pipeline.loop (pipeline.mark_group sort_values)
      (map (λ k, filter (λ row, molecule_key row = k) molecule_table) ks) m0
    = pipeline.Done m ∧
    (∀ k, k ∈ ks →
       ∃ good,
         good ∈ molecule_table ∧ molecule_key good = k ∧
         (∀ row, row ∈ molecule_table → molecule_key row = k →
                 (pipeline.readCount row ≤ pipeline.readCount good)%Z) ∧
         (∀ row, row ∈ molecule_table → molecule_key row = k →
                 m !! pipeline.readName row = Some (bool_decide (row ≠ good)))) ∧
    (∀ row, row ∈ molecule_table → molecule_key row ∉ ks →
            m !! pipeline.readName row = m0 !! pipeline.readName row).
Proof.
  revert m0. induction ks as [|k ks IH]; intros m0 Hnd Hks; simpl.
  { exists m0. split; [done|]. split; [by intros k ?%elem_of_nil|done]. }
  apply NoDup_cons in Hnd as [Hk Hnd].
  set (group := filter (λ row, molecule_key row = k) molecule_table).
  assert (∀ row, row ∈ group ↔ molecule_key row = k ∧ row ∈ molecule_table)
    as Hgroup by (intros row; unfold group; by rewrite list_elem_of_filter).
  destruct (mark_group_spec sort_values sort_values_perm sort_values_sorted m0 group)
    as (good & m1 & Hrun & Hgood & Hmax & Hm1).
  { destruct (Hks k) as (row & Hrow & Hkey); [by left|].
    intros Hnil. assert (row ∈ group) as Hin by (by apply Hgroup).
    rewrite Hnil in Hin. by apply elem_of_nil in Hin. }
  { apply (NoDup_fmap_2_strong pipeline.readName).
    - intros x y [_ Hx]%Hgroup [_ Hy]%Hgroup. by apply same_name_same_row.
    - apply NoDup_filter. by eapply NoDup_fmap_1. }
  rewrite Hrun. simpl.
  destruct (IH m1 Hnd) as (m & Hloop & Hkeys & Hother).
  { intros k' Hk'. apply Hks. by right. }
  apply Hgroup in Hgood as [Hgoodkey Hgoodin].
  assert (∀ row, row ∈ molecule_table →
            m1 !! pipeline.readName row
            = if decide (molecule_key row = k) then Some (bool_decide (row ≠ good))
              else m0 !! pipeline.readName row) as Hm1'.
  { intros row Hrow. rewrite Hm1.
    destruct (decide (molecule_key row = k)) as [Hkey|Hkey].
    - destruct (decide (pipeline.readName row = pipeline.readName good)) as [Hn|Hn].
      + rewrite (same_name_same_row row good Hrow Hgoodin Hn).
        by rewrite bool_decide_eq_false_2 by naive_solver.
      + rewrite decide_True.
        * rewrite bool_decide_eq_true_2; [done|]. by intros ->.
        * apply list_elem_of_fmap_2. by apply Hgroup.
    - rewrite decide_False.
      + rewrite decide_False; [done|].
        intros (row' & Hn & [Hkey' Hrow']%Hgroup)%list_elem_of_fmap.
        apply Hkey. by rewrite (same_name_same_row row row' Hrow Hrow' Hn).
      + intros Hn. apply Hkey.
        by rewrite (same_name_same_row row good Hrow Hgoodin Hn). }
  exists m. split; [done|]. split.
  - intros k' [->|Hk']%elem_of_cons; [|by apply Hkeys].
    exists good. split; [done|]. split; [done|]. split.
    + intros row Hrow Hkey. apply Hmax. by apply Hgroup.
    + intros row Hrow Hkey. rewrite Hother by (done || by rewrite Hkey).
      rewrite Hm1' by done. by rewrite decide_True.
  - intros row Hrow Hkey. apply not_elem_of_cons in Hkey as [Hne Hkey].
    rewrite Hother by done. rewrite Hm1' by done. by rewrite decide_False.
Qed.

(** The table of the reads kept: one read per (cellBC, UMI) pair of the
    input, of the largest read count of the pair. *)
Lemma resolved_spec :
  ∃ kept,
    pipeline.resolved sort_values molecule_table = pipeline.Done kept ∧
    sublist kept molecule_table ∧
    NoDup (molecule_key <$> kept) ∧
    ∀ row, row ∈ molecule_table →
      ∃ good, good ∈ kept ∧ molecule_key good = molecule_key row ∧
              (pipeline.readCount row ≤ pipeline.readCount good)%Z.
Proof.
  unfold pipeline.resolved, pipeline.groupby. rewrite map_map. simpl.
  set (ks := merge_sort pipeline.pair_le
               (remove_dups (map (λ row, (pipeline.cellBC row, pipeline.UMI row))
                                 molecule_table))).
  assert (ks ≡ₚ remove_dups (molecule_key <$> molecule_table)) as Hks
    by apply merge_sort_Permutation.
  assert (∀ k, k ∈ ks ↔ ∃ row, row ∈ molecule_table ∧ molecule_key row = k) as Hin.
  { intros k. rewrite Hks, elem_of_remove_dups, list_elem_of_fmap. naive_solver. }
  destruct (mark_groups_spec ks ∅) as (m & Hloop & Hkeys & _).
  { rewrite Hks. apply NoDup_remove_dups. }
  { intros k. apply Hin. }
  match goal with
  | |- context [pipeline.loop ?f ?l ?z] =>
      replace (pipeline.loop f l z) with (pipeline.Done (A:=gmap string bool) m)
        by (symmetry; exact Hloop)
  end.
  simpl. eexists. split; [done|].
  split; [apply sublist_filter|]. split.
  - apply NoDup_fmap_2_strong.
    + intros x y [Hx Hxin]%list_elem_of_filter [Hy Hyin]%list_elem_of_filter Hkey.
      destruct (Hkeys (molecule_key x)) as (good & _ & _ & _ & Hm);
        [apply Hin; eauto|].
      rewrite (Hm x Hxin eq_refl) in Hx. rewrite (Hm y Hyin) in Hy by done.
      injection Hx as Hx. injection Hy as Hy.
      apply bool_decide_eq_false in Hx, Hy.
      destruct (decide (x = good)) as [->|]; [|done].
      by destruct (decide (y = good)) as [->|].
    + apply NoDup_filter. by eapply NoDup_fmap_1.
  - intros row Hrow.
    destruct (Hkeys (molecule_key row)) as (good & Hgood & Hkey & Hmax & Hm);
      [apply Hin; eauto|].
    exists good. split; [|split; [done|by apply Hmax]].
    apply list_elem_of_filter. split; [|done].
    rewrite (Hm good Hgood Hkey). by rewrite bool_decide_eq_false_2 by naive_solver.
Qed.

End ResolveUMITable.

(** X18: on a molecule table whose read names are all different,
    [resolve_umi_sequence] hands to [filter_cells] a table that holds, in
    table order, exactly one read for each (cellBC, UMI) pair of the input,
    and that read has the largest read count of its pair; this holds
    whatever order the sort leaves among reads of equal count. *)
Theorem X18_resolve_umi_sequence_one_read_per_umi
    (sort_values : list pipeline.Molecule → list pipeline.Molecule)
    (Coverage : Type)
    (filter_cells : list pipeline.Molecule → Z → Coverage → list pipeline.Molecule)
    (molecule_table : list pipeline.Molecule)
    (min_avg_reads_per_umi : Coverage) (min_umi_per_cell : Z) :
  (∀ l, sort_values l ≡ₚ l) →
  (∀ l, Sorted by_read_count (sort_values l)) →
  NoDup (pipeline.readName <$> molecule_table) →
  ∃ kept,
    pipeline.resolve_umi_sequence sort_values Coverage filter_cells
      molecule_table min_avg_reads_per_umi min_umi_per_cell
    = pipeline.Done (filter_cells kept min_umi_per_cell min_avg_reads_per_umi) ∧
    sublist kept molecule_table ∧
    NoDup (molecule_key <$> kept) ∧
    ∀ row, row ∈ molecule_table →
      ∃ good, good ∈ kept ∧ molecule_key good = molecule_key row ∧
              (pipeline.readCount row ≤ pipeline.readCount good)%Z.
Proof.
  intros Hperm Hsorted Hnames.
  destruct (resolved_spec sort_values Hperm Hsorted molecule_table Hnames)
    as (kept & Hrun & Hsub & Hnd & Hmax).
  exists kept. split; [|done].
  unfold pipeline.resolve_umi_sequence. by rewrite Hrun.
Qed.

Lemma X18_resolve_umi_sequence_one_read_per_umi_witness :
  ∃ kept,
    pipeline.resolve_umi_sequence (merge_sort by_read_count) unit (λ table _ _, table)
      [ {| pipeline.readName := "r1"; pipeline.cellBC := "A"; pipeline.UMI := "AC";
           pipeline.readCount := 3; pipeline.seq := "ACGT" |};
        {| pipeline.readName := "r2"; pipeline.cellBC := "A"; pipeline.UMI := "AC";
           pipeline.readCount := 9; pipeline.seq := "ACGA" |};
        {| pipeline.readName := "r3"; pipeline.cellBC := "B"; pipeline.UMI := "AC";
           pipeline.readCount := 1; pipeline.seq := "TTTT" |} ]
      () 10%Z
    = pipeline.Done ((λ table _ _, table) kept 10%Z ()) ∧
    sublist kept
      [ {| pipeline.readName := "r1"; pipeline.cellBC := "A"; pipeline.UMI := "AC";
           pipeline.readCount := 3; pipeline.seq := "ACGT" |};
        {| pipeline.readName := "r2"; pipeline.cellBC := "A"; pipeline.UMI := "AC";
           pipeline.readCount := 9; pipeline.seq := "ACGA" |};
        {| pipeline.readName := "r3"; pipeline.cellBC := "B"; pipeline.UMI := "AC";
           pipeline.readCount := 1; pipeline.seq := "TTTT" |} ] ∧
    NoDup (molecule_key <$> kept) ∧
    ∀ row,
      row ∈
        [ {| pipeline.readName := "r1"; pipeline.cellBC := "A"; pipeline.UMI := "AC";
             pipeline.readCount := 3; pipeline.seq := "ACGT" |};
          {| pipeline.readName := "r2"; pipeline.cellBC := "A"; pipeline.UMI := "AC";
             pipeline.readCount := 9; pipeline.seq := "ACGA" |};
          {| pipeline.readName := "r3"; pipeline.cellBC := "B"; pipeline.UMI := "AC";
             pipeline.readCount := 1; pipeline.seq := "TTTT" |} ] →
      ∃ good, good ∈ kept ∧ molecule_key good = molecule_key row ∧
              (pipeline.readCount row ≤ pipeline.readCount good)%Z.
Proof.
  apply (X18_resolve_umi_sequence_one_read_per_umi
           (merge_sort by_read_count) unit (λ table _ _, table)).
  - intros l. apply merge_sort_Permutation.
  - intros l. apply Sorted_merge_sort, _.
  - by_evaluation.
Defined.
